(** * The MLB replay simulator: engine, base running and roster selection

    A shallow embedding of [engine.py] (class [Engine]), of class [Team]
    of [classes.py], of [create_league] of [utils.py] and of
    [get_team_object], [format_matchup_header], [print_team_summary] and
    the tail of [main] of [project.py], followed by the properties stated
    about them.

    Conventions of the embedding.
    - Python [int]s are [Z]; Python [float]s are exact rationals [Q], with
      the comparisons and [max]/[min] written the way Python evaluates them.
    - Python lists are [list]s read and written by index through
      [py_getitem] and [py_setitem], which raise [IndexError] out of range.
    - The one [Engine] object, the [Team] objects it refers to, the random
      generator and the console are the fields of a [World]; every method
      is a computation in the state-and-exception monad [M].
    - [Team] objects are mutable and may be shared (the same team can be
      picked as home and as away side), so the engine holds references
      into a store of teams.
    - [random.random()] reads the next element of a stream of draws;
      [random.choice] reads the next element of a stream of indices.
    - [print] appends a typed event to the console log.
    - A [while] loop whose number of iterations is not bounded by its
      text takes a fuel argument and fails with [OutOfFuel] when it runs
      out. *)

From Stdlib Require Import ZArith QArith Qminmax Lia Lqa Ascii String List Permutation Sorted.
From stdpp Require Import base option list strings gmap.

Local Open Scope Z_scope.

(** ** Numbers *)

(** [x < y] on Python floats. *)
Definition Qltb (x y : Q) : bool :=
  Qnum x * QDen y <? Qnum y * QDen x.

(** [max(a, b)]: the first argument is kept unless the second is strictly
    greater. *)
Definition py_max (a b : Q) : Q := if Qltb a b then b else a.

(** [min(a, b)]: the first argument is kept unless the second is strictly
    smaller. *)
Definition py_min (a b : Q) : Q := if Qltb b a then b else a.

(** ** Players and teams ([classes.py]) *)

Module Batter.
Record t := mk {
  name : string;
  team : string;
  ops : Q;
  war : Q;
  obp : Q;
  slg : Q;
  overall : Q
}.
End Batter.

Module Pitcher.
Record t := mk {
  name : string;
  team : string;
  era : Q;
  whip : Q;
  war : Q;
  overall : Q
}.
End Pitcher.

(** [current_batter_index] is an attribute that [play_half_inning] adds to
    the team the first time the team bats: [None] stands for a team
    without the attribute. *)
Record Team := mkTeam {
  code : string;
  batters : list Batter.t;
  pitchers : list Pitcher.t;
  defense : Q;
  current_batter_index : option Z
}.

Definition set_current_batter_index (t : Team) (i : Z) : Team :=
  {| code := code t; batters := batters t; pitchers := pitchers t;
     defense := defense t; current_batter_index := Some i |}.

(** [sorted(l, key=..., reverse=True)]: a stable sort in descending order
    of the key, elements with equal keys keeping their original order. *)
Fixpoint insert_desc {A : Type} (key : A -> Q) (x : A) (l : list A) : list A :=
  match l with
  | [] => [x]
  | y :: l' => if Qltb (key x) (key y) then y :: insert_desc key x l' else x :: l
  end.

Definition sorted_desc {A : Type} (key : A -> Q) (l : list A) : list A :=
  foldr (insert_desc key) [] l.

(** ** The world: engine, teams, random generator, console *)

Definition TeamRef := nat.

Record Engine := mkEngine {
  home_team : TeamRef;
  away_team : TeamRef;
  home_pitcher : option Pitcher.t;
  away_pitcher : option Pitcher.t;
  home_score : Z;
  away_score : Z;
  inning : Z;
  home_pitcher_fatigue : Q;
  away_pitcher_fatigue : Q
}.

Inductive Event :=
| PlayBall (away home : string)
| PitchingMatchup (away home : string)
| GameCalled
| TopOf (n : Z)
| BottomOf (n : Z)
| Score (away : string) (away_runs : Z) (home : string) (home_runs : Z)
| Walks (batter : string)
| Singles (batter : string)
| HitsDouble (batter : string)
| HitsTriple (batter : string)
| HomeRun (batter : string)
| RunsScored (n : Z)
| Robbed (team : string)
| TeamSummary (label : string) (team : string) (starter : option (string * Q))
    (defense_rating : Q) (lineup : list (string * Q))
| FinalScore (away : string) (away_runs : Z) (home : string) (home_runs : Z)
| Wins (team : string)
| Tie.

Record World := mkWorld {
  engine : Engine;
  teams : TeamRef -> Team;
  draws : nat -> Q;
  draw_pos : nat;
  picks : nat -> nat;
  pick_pos : nat;
  log : list Event
}.

Definition set_engine (w : World) (e : Engine) : World :=
  {| engine := e; teams := teams w; draws := draws w; draw_pos := draw_pos w;
     picks := picks w; pick_pos := pick_pos w; log := log w |}.

Definition set_teams (w : World) (ts : TeamRef -> Team) : World :=
  {| engine := engine w; teams := ts; draws := draws w; draw_pos := draw_pos w;
     picks := picks w; pick_pos := pick_pos w; log := log w |}.

Definition set_draw_pos (w : World) (n : nat) : World :=
  {| engine := engine w; teams := teams w; draws := draws w; draw_pos := n;
     picks := picks w; pick_pos := pick_pos w; log := log w |}.

Definition set_pick_pos (w : World) (n : nat) : World :=
  {| engine := engine w; teams := teams w; draws := draws w; draw_pos := draw_pos w;
     picks := picks w; pick_pos := n; log := log w |}.

Definition set_log (w : World) (l : list Event) : World :=
  {| engine := engine w; teams := teams w; draws := draws w; draw_pos := draw_pos w;
     picks := picks w; pick_pos := pick_pos w; log := l |}.

Definition set_home_score (e : Engine) (s : Z) : Engine :=
  {| home_team := home_team e; away_team := away_team e;
     home_pitcher := home_pitcher e; away_pitcher := away_pitcher e;
     home_score := s; away_score := away_score e; inning := inning e;
     home_pitcher_fatigue := home_pitcher_fatigue e;
     away_pitcher_fatigue := away_pitcher_fatigue e |}.

Definition set_away_score (e : Engine) (s : Z) : Engine :=
  {| home_team := home_team e; away_team := away_team e;
     home_pitcher := home_pitcher e; away_pitcher := away_pitcher e;
     home_score := home_score e; away_score := s; inning := inning e;
     home_pitcher_fatigue := home_pitcher_fatigue e;
     away_pitcher_fatigue := away_pitcher_fatigue e |}.

Definition set_inning (e : Engine) (n : Z) : Engine :=
  {| home_team := home_team e; away_team := away_team e;
     home_pitcher := home_pitcher e; away_pitcher := away_pitcher e;
     home_score := home_score e; away_score := away_score e; inning := n;
     home_pitcher_fatigue := home_pitcher_fatigue e;
     away_pitcher_fatigue := away_pitcher_fatigue e |}.

Definition set_fatigue (e : Engine) (h a : Q) : Engine :=
  {| home_team := home_team e; away_team := away_team e;
     home_pitcher := home_pitcher e; away_pitcher := away_pitcher e;
     home_score := home_score e; away_score := away_score e; inning := inning e;
     home_pitcher_fatigue := h;
     away_pitcher_fatigue := a |}.

(** ** The monad of engine computations *)

Inductive loop := GameLoop | HalfInningLoop.

Inductive failure :=
| IndexError
| AttributeError
| OutOfFuel (l : loop).

Inductive res (A : Type) :=
| Ok (a : A) (w : World)
| Fail (f : failure) (w : World).
Arguments Ok {A} a w.
Arguments Fail {A} f w.

Definition M (A : Type) : Type := World -> res A.

Definition ret {A : Type} (a : A) : M A := fun w => Ok a w.

Definition bind {A B : Type} (m : M A) (k : A -> M B) : M B :=
  fun w => match m w with
           | Ok a w' => k a w'
           | Fail f w' => Fail f w'
           end.

#[global] Instance M_ret : MRet M := @ret.
#[global] Instance M_bind : MBind M := fun A B k m => bind m k.

Definition raise {A : Type} (f : failure) : M A := fun w => Fail f w.

Definition get : M World := fun w => Ok w w.

Definition modify (f : World -> World) : M unit := fun w => Ok tt (f w).

Definition self : M Engine := fun w => Ok (engine w) w.

Definition modify_self (f : Engine -> Engine) : M unit :=
  modify (fun w => set_engine w (f (engine w))).

Definition print (e : Event) : M unit :=
  modify (fun w => set_log w (log w ++ [e])).

(** [random.random()] *)
Definition random : M Q :=
  fun w => Ok (draws w (draw_pos w)) (set_draw_pos w (S (draw_pos w))).

(** The index that [random.choice] picks in a sequence of [n] elements. *)
Definition randbelow (n : nat) : M nat :=
  fun w => Ok (picks w (pick_pos w) `mod` n)%nat (set_pick_pos w (S (pick_pos w))).

(** [l[i]], negative indices counting from the end. *)
Definition py_index {A : Type} (l : list A) (i : Z) : option nat :=
  let n := Z.of_nat (length l) in
  if (0 <=? i) && (i <? n) then Some (Z.to_nat i)
  else if (- n <=? i) && (i <? 0) then Some (Z.to_nat (n + i))
  else None.

Definition py_getitem {A : Type} (l : list A) (i : Z) : M A :=
  match py_index l i with
  | Some k => match l !! k with
              | Some x => ret x
              | None => raise IndexError
              end
  | None => raise IndexError
  end.

(** [l[i] = x] on a list the caller holds the only reference to: the
    updated list is returned. *)
Definition py_setitem {A : Type} (l : list A) (i : Z) (x : A) : M (list A) :=
  match py_index l i with
  | Some k => ret (<[k:=x]> l)
  | None => raise IndexError
  end.

(** Attribute access on a value that may be Python's [None]. *)
Definition deref {A : Type} (o : option A) : M A :=
  match o with
  | Some x => ret x
  | None => raise AttributeError
  end.

Definition team_of (r : TeamRef) : M Team := fun w => Ok (teams w r) w.

Definition update_team (r : TeamRef) (f : Team -> Team) : M unit :=
  modify (fun w => set_teams w (fun r' => if Nat.eqb r' r then f (teams w r') else teams w r')).

(** ** Roster selection ([classes.py]) *)

(** [Team.get_starting_pitcher] *)
Definition get_starting_pitcher (r : TeamRef) : M (option Pitcher.t) :=
  t ← team_of r;
  match pitchers t with
  | [] => mret None
  | _ =>
      let sorted_pitchers := sorted_desc Pitcher.overall (pitchers t) in
      let top3_pitchers := take 3 sorted_pitchers in
      k ← randbelow (length top3_pitchers);
      p ← py_getitem top3_pitchers (Z.of_nat k);
      mret (Some p)
  end.

(** [Team.get_starting_lineup] *)
Definition get_starting_lineup (t : Team) : list Batter.t :=
  if Z.of_nat (length (batters t)) <? 9 then batters t
  else
    let best_batters := sorted_desc Batter.overall (batters t) in
    take 9 best_batters.

(** ** The engine ([engine.py]) *)

Inductive Outcome := OUT | WALK | SINGLE | DOUBLE | TRIPLE | HR.

(** [Engine.__init__] *)
Definition Engine_init (home away : TeamRef) (home_p away_p : option Pitcher.t) : M unit :=
  modify (fun w => set_engine w
    {| home_team := home; away_team := away;
       home_pitcher := home_p; away_pitcher := away_p;
       home_score := 0; away_score := 0; inning := 1;
       home_pitcher_fatigue := 0; away_pitcher_fatigue := 0 |}).

Definition add_runs (is_home : bool) (runs : Z) : M unit :=
  if is_home then modify_self (fun e => set_home_score e (home_score e + runs))
  else modify_self (fun e => set_away_score e (away_score e + runs)).

(** [Engine.advance_runners]: the list [bases] is updated in place in the
    source; here the updated list is the result. *)
Definition advance_runners (bases : list Z) (hits : Z) (is_walk is_home : bool)
  : M (list Z) :=
  let runs_scored := 0 in
  '(bases, runs_scored) ←
    (if is_walk then
       b0 ← py_getitem bases 0;
       '(bases, runs_scored) ←
         (if b0 =? 1 then
            b1 ← py_getitem bases 1;
            '(bases, runs_scored) ←
              (if b1 =? 1 then
                 b2 ← py_getitem bases 2;
                 let runs_scored := if b2 =? 1 then runs_scored + 1 else runs_scored in
                 bases ← py_setitem bases 2 1;
                 mret (bases, runs_scored)
               else mret (bases, runs_scored));
            bases ← py_setitem bases 1 1;
            mret (bases, runs_scored)
          else mret (bases, runs_scored));
       bases ← py_setitem bases 0 1;
       mret (bases, runs_scored)
     else
       b2 ← py_getitem bases 2;
       '(bases, runs_scored) ←
         (if b2 =? 1 then
            bases ← py_setitem bases 2 0;
            mret (bases, runs_scored + 1)
          else mret (bases, runs_scored));
       b1 ← py_getitem bases 1;
       '(bases, runs_scored) ←
         (if b1 =? 1 then
            if hits >=? 2 then
              bases ← py_setitem bases 1 0;
              mret (bases, runs_scored + 1)
            else
              bases ← py_setitem bases 2 1;
              bases ← py_setitem bases 1 0;
              mret (bases, runs_scored)
          else mret (bases, runs_scored));
       b0 ← py_getitem bases 0;
       '(bases, runs_scored) ←
         (if b0 =? 1 then
            if hits =? 3 then
              bases ← py_setitem bases 0 0;
              mret (bases, runs_scored + 1)
            else if hits =? 2 then
              bases ← py_setitem bases 2 1;
              bases ← py_setitem bases 0 0;
              mret (bases, runs_scored)
            else
              bases ← py_setitem bases 1 1;
              bases ← py_setitem bases 0 0;
              mret (bases, runs_scored)
          else mret (bases, runs_scored));
       bases ←
         (if hits =? 1 then py_setitem bases 0 1
          else if hits =? 2 then py_setitem bases 1 1
          else if hits =? 3 then py_setitem bases 2 1
          else mret bases);
       mret (bases, runs_scored));
  (if runs_scored >? 0 then
     print (RunsScored runs_scored);;
     add_runs is_home runs_scored
   else mret tt);;
  mret bases.

Definition AVG_WHIP : Q := 1.30.
Definition WHIP_COEFF : Q := 0.40.
Definition DEFENSE_DIVISOR : Q := 300.
Definition WALK_RATE : Q := 0.225.
Definition SINGLE_RATE : Q := 0.755.
Definition XBH_RATE : Q := 0.92.
Definition TRIPLE_CHANCE : Q := 0.15.
Definition ISO_MULTIPLIER : Q := 2.5.

(** The chance that the defense turns a ball in play into an out. *)
Definition defense_save_chance (defense_rating : Q) : Q :=
  py_max 0 (defense_rating / DEFENSE_DIVISOR)%Q.

(** The batter's chance to reach base against this pitcher. *)
Definition adjusted_obp (batter_obp pitcher_whip fatigue : Q) : Q :=
  let current_whip := (pitcher_whip + fatigue)%Q in
  let whip_diff := (current_whip - AVG_WHIP)%Q in
  let adjusted_obp := (batter_obp + whip_diff * WHIP_COEFF)%Q in
  py_max 0.100 (py_min 0.700 adjusted_obp).

(** [Engine.simulate_at_bat] *)
Definition simulate_at_bat (batter : Batter.t) (pitcher : option Pitcher.t)
    (defense_rating fatigue : Q) : M Outcome :=
  p ← deref pitcher;
  let adjusted_obp := adjusted_obp (Batter.obp batter) (Pitcher.whip p) fatigue in
  r ← random;
  if Qltb adjusted_obp r then mret OUT
  else
    let defense_save_chance := defense_save_chance defense_rating in
    r ← random;
    if Qltb r defense_save_chance then
      p ← deref pitcher;
      print (Robbed (Pitcher.team p));;
      mret OUT
    else
      type_roll ← random;
      if Qltb type_roll WALK_RATE then mret WALK
      else if Qltb type_roll SINGLE_RATE then mret SINGLE
      else if Qltb type_roll XBH_RATE then
        r ← random;
        mret (if Qltb r TRIPLE_CHANCE then TRIPLE else DOUBLE)
      else
        let iso := (Batter.ops batter - Batter.obp batter)%Q in
        let power_threshold := (1.0 - iso * ISO_MULTIPLIER)%Q in
        r ← random;
        if Qltb power_threshold r then mret HR else mret DOUBLE.

(** [sum(bases)] *)
Definition py_sum (l : list Z) : Z := foldl Z.add 0 l.

(** The [if]/[elif] chain of [play_half_inning] that applies the result of
    an at-bat to the locals [outs] and [bases] and to the score. *)
Definition apply_result (batter : Batter.t) (result : Outcome) (is_home : bool)
    (outs : Z) (bases : list Z) : M (Z * list Z) :=
  match result with
  | OUT => mret (outs + 1, bases)
  | WALK =>
      print (Walks (Batter.name batter));;
      bases ← advance_runners bases 1 true is_home;
      mret (outs, bases)
  | SINGLE =>
      print (Singles (Batter.name batter));;
      bases ← advance_runners bases 1 false is_home;
      mret (outs, bases)
  | DOUBLE =>
      print (HitsDouble (Batter.name batter));;
      bases ← advance_runners bases 2 false is_home;
      mret (outs, bases)
  | TRIPLE =>
      print (HitsTriple (Batter.name batter));;
      bases ← advance_runners bases 3 false is_home;
      mret (outs, bases)
  | HR =>
      print (HomeRun (Batter.name batter));;
      let runs := py_sum bases + 1 in
      add_runs is_home runs;;
      mret (outs, [0; 0; 0])
  end.

(** The walk-off test at the top of the loop of [play_half_inning]. *)
Definition walk_off (e : Engine) (is_home : bool) : bool :=
  (inning e >=? 9) && is_home && (home_score e >? away_score e).

(** One plate appearance: the body of the loop of [play_half_inning] after
    the walk-off test. *)
Definition plate_appearance (batting_team defending_team : TeamRef)
    (lineup : list Batter.t) (pitcher : option Pitcher.t) (fatigue : Q)
    (is_home : bool) (outs : Z) (bases : list Z) : M (Z * list Z) :=
  bt ← team_of batting_team;
  i ← deref (current_batter_index bt);
  batter ← py_getitem lineup i;
  dt ← team_of defending_team;
  result ← simulate_at_bat batter pitcher (defense dt) fatigue;
  '(outs, bases) ← apply_result batter result is_home outs bases;
  bt ← team_of batting_team;
  i ← deref (current_batter_index bt);
  update_team batting_team (fun t => set_current_batter_index t ((i + 1) `mod` 9));;
  mret (outs, bases).

(** The loop [while outs < 3] of [play_half_inning]. *)
Fixpoint half_inning_loop (fuel : nat) (batting_team defending_team : TeamRef)
    (lineup : list Batter.t) (pitcher : option Pitcher.t) (fatigue : Q)
    (is_home : bool) (outs : Z) (bases : list Z) : M unit :=
  match fuel with
  | O => raise (OutOfFuel HalfInningLoop)
  | S fuel' =>
      if outs <? 3 then
        e ← self;
        if walk_off e is_home then mret tt
        else
          '(outs, bases) ← plate_appearance batting_team defending_team lineup
                             pitcher fatigue is_home outs bases;
          half_inning_loop fuel' batting_team defending_team lineup pitcher
            fatigue is_home outs bases
      else mret tt
  end.

(** [Engine.play_half_inning] *)
Definition play_half_inning (fuel : nat) (batting_team defending_team : TeamRef)
    (pitcher : option Pitcher.t) (fatigue : Q) (is_home : bool) : M unit :=
  let outs := 0 in
  let bases := [0; 0; 0] in
  bt ← team_of batting_team;
  let lineup := get_starting_lineup bt in
  (match current_batter_index bt with
   | None => update_team batting_team (fun t => set_current_batter_index t 0)
   | Some _ => mret tt
   end);;
  half_inning_loop fuel batting_team defending_team lineup pitcher fatigue
    is_home outs bases.

(** The top half of [play_inning]: the away team bats against the home
    pitcher. *)
Definition top_of_inning (fuel : nat) : M unit :=
  e ← self;
  print (TopOf (inning e));;
  play_half_inning fuel (away_team e) (home_team e) (home_pitcher e)
    (home_pitcher_fatigue e) false.

(** The score line that ends [play_inning]. *)
Definition print_score : M unit :=
  e ← self;
  a ← team_of (away_team e);
  h ← team_of (home_team e);
  print (Score (code a) (away_score e) (code h) (home_score e)).

(** The bottom half of [play_inning]: the home team bats against the away
    pitcher, and the score is printed. *)
Definition bottom_of_inning (fuel : nat) : M unit :=
  e ← self;
  print (BottomOf (inning e));;
  play_half_inning fuel (home_team e) (away_team e) (away_pitcher e)
    (away_pitcher_fatigue e) true;;
  print_score.

(** [Engine.play_inning] *)
Definition play_inning (fuel : nat) : M unit :=
  top_of_inning fuel;;
  e ← self;
  if (inning e >=? 9) && (home_score e >? away_score e) then mret tt
  else bottom_of_inning fuel.

(** [Engine.declare_winner] *)
Definition declare_winner : M unit :=
  e ← self;
  a ← team_of (away_team e);
  h ← team_of (home_team e);
  print (FinalScore (code a) (away_score e) (code h) (home_score e));;
  if home_score e >? away_score e then print (Wins (code h))
  else if away_score e >? home_score e then print (Wins (code a))
  else print Tie.

(** The fatigue added to both pitchers after every inning. *)
Definition FATIGUE_STEP : Q := 0.05.

Definition end_of_inning : M unit :=
  modify_self (fun e => set_fatigue e (home_pitcher_fatigue e + FATIGUE_STEP)%Q
                                      (away_pitcher_fatigue e));;
  modify_self (fun e => set_fatigue e (home_pitcher_fatigue e)
                                      (away_pitcher_fatigue e + FATIGUE_STEP)%Q);;
  modify_self (fun e => set_inning e (inning e + 1)).

(** The test of the game loop of [play]. *)
Definition game_goes_on (e : Engine) : bool :=
  (inning e <=? 9) || (away_score e =? home_score e).

(** The loop [while self.inning <= 9 or self.away_score == self.home_score]
    of [play]; [k] bounds its iterations and [fuel] those of each
    half-inning. *)
Fixpoint game_loop (k fuel : nat) : M unit :=
  match k with
  | O => raise (OutOfFuel GameLoop)
  | S k' =>
      e ← self;
      if game_goes_on e then
        if inning e >? 15 then print GameCalled
        else
          play_inning fuel;;
          end_of_inning;;
          game_loop k' fuel
      else mret tt
  end.

(** [Engine.play] *)
Definition play (k fuel : nat) : M unit :=
  e ← self;
  a ← team_of (away_team e);
  h ← team_of (home_team e);
  print (PlayBall (code a) (code h));;
  ap ← deref (away_pitcher e);
  hp ← deref (home_pitcher e);
  print (PitchingMatchup (Pitcher.name ap) (Pitcher.name hp));;
  game_loop k fuel;;
  declare_winner.

(** ** Starting a game ([project.py]) *)

(** [print_team_summary] *)
Definition print_team_summary (r : TeamRef) (label : string)
    (pitcher_obj : option Pitcher.t) : M unit :=
  t ← team_of r;
  print (TeamSummary label (code t)
           ((fun p => (Pitcher.name p, Pitcher.overall p)) <$> pitcher_obj)
           (defense t)
           ((fun b => (Batter.name b, Batter.overall b)) <$> get_starting_lineup t)).

(** Steps 6 to 8 of [main]: select the pitchers, print the line-ups, build
    the engine and play. *)
Definition start_simulation (away home : TeamRef) (k fuel : nat) : M unit :=
  away_pitcher ← get_starting_pitcher away;
  home_pitcher ← get_starting_pitcher home;
  print_team_summary away "AWAY" away_pitcher;;
  print_team_summary home "HOME" home_pitcher;;
  Engine_init home away home_pitcher away_pitcher;;
  play k fuel.

(** * Definitions for stating the properties *)

(** ** The base state machine *)

(** A base occupancy with three binary slots, as the list the engine uses. *)
Definition bases_of (first second third : bool) : list Z :=
  [Z.b2z first; Z.b2z second; Z.b2z third].

(** The number of occupied bases. *)
Definition occupied (bases : list Z) : Z :=
  Z.of_nat (length (filter (fun b => b = 1) bases)).

Definition batting_score (is_home : bool) (w : World) : Z :=
  if is_home then home_score (engine w) else away_score (engine w).

(** What one play does, as seen from outside: the outs after it, the bases
    after it, the runs it adds for the batting side and for the other
    side; [None] when it raises. *)
Definition play_effect (is_home : bool) (w : World) (r : res (Z * list Z))
  : option (Z * list Z * Z * Z) :=
  match r with
  | Ok (outs, bases) w' =>
      Some (outs, bases,
            batting_score is_home w' - batting_score is_home w,
            batting_score (negb is_home) w' - batting_score (negb is_home) w)
  | Fail _ _ => None
  end.

(** The transition on a hit in the words of the specification: where each
    runner and the batter go, and from that the new occupancy and the
    runs. *)
Inductive Place := First | Second | Third | HomePlate.

#[global] Instance Place_eq_dec : EqDecision Place.
Proof. solve_decision. Defined.

Definition runner_on_third_goes (N : Z) : Place := HomePlate.

Definition runner_on_second_goes (N : Z) : Place :=
  if N >=? 2 then HomePlate else Third.

Definition runner_on_first_goes (N : Z) : Place :=
  if N =? 3 then HomePlate else if N =? 2 then Third else Second.

Definition batter_goes (N : Z) : Place :=
  if N =? 1 then First else if N =? 2 then Second else Third.

Definition arrivals (N : Z) (first second third : bool) : list Place :=
  (if third then [runner_on_third_goes N] else []) ++
  (if second then [runner_on_second_goes N] else []) ++
  (if first then [runner_on_first_goes N] else []) ++
  [batter_goes N].

Definition arrived (p : Place) (l : list Place) : Z :=
  Z.b2z (bool_decide (p ∈ l)).

Definition spec_hit (N : Z) (first second third : bool) : list Z * Z :=
  let l := arrivals N first second third in
  ([arrived First l; arrived Second l; arrived Third l],
   Z.of_nat (length (filter (fun p => p = HomePlate) l))).

Definition spec_home_run (first second third : bool) : list Z * Z :=
  ([0; 0; 0], occupied (bases_of first second third) + 1).

(** The transition on a walk in the words of the specification. *)
Definition spec_walk (first second third : bool) : list Z * Z :=
  let first_forced := first in
  let second_forced := first && second in
  let third_forced := first && second && third in
  ([1;
    if first_forced then 1 else Z.b2z second;
    if second_forced then 1 else Z.b2z third],
   if third_forced then 1 else 0).

(** The outcome of a hit worth [N] bases. *)
Definition hit (N : Z) : Outcome :=
  if N =? 1 then SINGLE else if N =? 2 then DOUBLE else TRIPLE.

(** The transition of every outcome, for the invariants below. *)
Definition spec_play (result : Outcome) (first second third : bool) : list Z * Z :=
  match result with
  | OUT => (bases_of first second third, 0)
  | WALK => spec_walk first second third
  | SINGLE => spec_hit 1 first second third
  | DOUBLE => spec_hit 2 first second third
  | TRIPLE => spec_hit 3 first second third
  | HR => spec_home_run first second third
  end.

Definition outs_after (result : Outcome) (outs : Z) : Z :=
  match result with
  | OUT => outs + 1
  | _ => outs
  end.

(** The base states a half-inning can go through: it starts from empty
    bases and every play replaces the bases by those that [apply_result]
    returns. *)
Inductive reachable_bases : list Z -> Prop :=
| reachable_start : reachable_bases [0; 0; 0]
| reachable_play (bases bases' : list Z) (batter : Batter.t) (result : Outcome)
    (is_home : bool) (outs outs' : Z) (w w' : World) :
    reachable_bases bases ->
    apply_result batter result is_home outs bases w = Ok (outs', bases') w' ->
    reachable_bases bases'.

(** ** The at-bat resolver *)

(** [clamp(x, lo, hi)] as the specification uses it. *)
Definition clamp (x lo hi : Q) : Q :=
  if Qltb x lo then lo else if Qltb hi x then hi else x.

(** The resolver in the words of the specification, as a function of the
    ratings and of the draws it names: [r1] for the contact check, [r2]
    for the defense check, [r3] for the hit type, [r4] for the draw that
    splits extra-base hits and [r5] for the draw of the power check.  The
    second component counts the draws taken. *)
Definition spec_adjusted_obp (obp whip fatigue : Q) : Q :=
  let effective_whip := (whip + fatigue)%Q in
  let whip_diff := (effective_whip - 1.30)%Q in
  clamp (obp + whip_diff * 0.40)%Q 0.100 0.700.



(** The value that the [k]-th next call of [random.random()] returns. *)
Definition nth_draw (w : World) (k : nat) : Q := draws w (k + draw_pos w)%nat.

(** ** Frames *)

(** The innings announced in a stretch of the console log. *)
Definition innings_played (l : list Event) : list Z :=
  omap (fun e => match e with TopOf n => Some n | _ => None end) l.

(** [grows ns w w']: from [w] to [w'] the inning number, both fatigue
    values, the teams and pitchers of the engine and the stream of draws
    are the same, draws have only been taken, and the console has only
    grown, by lines that announce the innings [ns]. *)
Record grows (ns : list Z) (w w' : World) : Prop := mk_grows {
  fr_inning : inning (engine w') = inning (engine w);
  fr_home_fatigue :
    home_pitcher_fatigue (engine w') = home_pitcher_fatigue (engine w);
  fr_away_fatigue :
    away_pitcher_fatigue (engine w') = away_pitcher_fatigue (engine w);
  fr_home_team : home_team (engine w') = home_team (engine w);
  fr_away_team : away_team (engine w') = away_team (engine w);
  fr_home_pitcher : home_pitcher (engine w') = home_pitcher (engine w);
  fr_away_pitcher : away_pitcher (engine w') = away_pitcher (engine w);
  fr_draws : draws w' = draws w;
  fr_draw_pos : (draw_pos w <= draw_pos w')%nat;
  fr_log : exists l, log w' = log w ++ l /\ innings_played l = ns
}.

(** Nothing of the above changes and no inning is announced. *)
Definition frame : World -> World -> Prop := grows [].

(** The world in which a computation stops, normally or not. *)
Definition final {A : Type} (r : res A) : World :=
  match r with
  | Ok _ w => w
  | Fail _ w => w
  end.

(** The failure of a computation, if it fails. *)
Definition failure_of {A : Type} (r : res A) : option failure :=
  match r with
  | Ok _ _ => None
  | Fail f _ => Some f
  end.

(** A computation of the inside of an inning: it keeps the frame and never
    fails for the game loop's lack of fuel. *)
Definition preserves {A : Type} (m : M A) : Prop :=
  forall w, frame w (final (m w))
            /\ failure_of (m w) <> Some (OutOfFuel GameLoop).

(** ** Sample objects, for running the engine on concrete inputs *)

Module Sample.
Definition batter : Batter.t :=
  Batter.mk "Batter" "AWY" 0.800 2 0.350 0.450 76.

Definition pitcher (name : string) (overall : Q) : Pitcher.t :=
  Pitcher.mk name "HOM" 3.50 1.20 2 overall.

(** A team whose roster has [n] batters and one pitcher. *)
Definition team (code : string) (n : nat) : Team :=
  mkTeam code (replicate n batter) [pitcher "Starter" 78] 10 None.

(** The store in which team 0 (home) has nine batters and team 1 (away)
    has [n]. *)
Definition store (n : nat) : TeamRef -> Team :=
  fun r => if Nat.eqb r 1 then team "AWY" n else team "HOM" 9.

Definition new_engine : Engine :=
  mkEngine 0%nat 1%nat (Some (pitcher "Home" 78)) (Some (pitcher "Away" 75))
    0 0 1 0 0.

(** A world at the start of a game, with [n] batters on the away team
    and the stream of draws [d]. *)
Definition world (n : nat) (d : nat -> Q) : World :=
  mkWorld new_engine (store n) d 0 (fun k => k) 0 [].

(** The same world in the ninth inning, with the given scores. *)
Definition ninth_inning (away_runs home_runs : Z) : World :=
  set_engine (world 9 (fun _ => 0.99%Q))
    (set_inning (set_home_score (set_away_score new_engine away_runs) home_runs)
       9).

(** Every draw is 0.99: every at-bat is an out. *)
Definition all_outs : nat -> Q := fun _ => 0.99%Q.

(** The draws 0.30, 0.50, 0.95, 0.99, then 0.99 for ever. *)
Definition power_swing : nat -> Q :=
  fun k => match k with
           | O => 0.30%Q
           | S O => 0.50%Q
           | S (S O) => 0.95%Q
           | _ => 0.99%Q
           end.
End Sample.

(** ** Roster selection *)

(** [x] stands before [y] in a descending order of the key. *)
Definition desc {A : Type} (key : A -> Q) (x y : A) : Prop := (key y <= key x)%Q.

(** The pitchers among which the starter is drawn. *)
Definition top3 (pool : list Pitcher.t) : list Pitcher.t :=
  take 3 (sorted_desc Pitcher.overall pool).

(** The world [w] with a generator that picks index [n] next. *)
Definition with_pick (w : World) (n : nat) : World :=
  {| engine := engine w; teams := teams w; draws := draws w;
     draw_pos := draw_pos w; picks := fun _ => n; pick_pos := pick_pos w;
     log := log w |}.

(** ** The game loop *)

(** The world once the top of the current inning is announced. *)
Definition announced (w : World) : World :=
  set_log w (log w ++ [TopOf (inning (engine w))]).

(** What the game loop has done when it stops in [w'], having started in
    [w]: [n] innings were completed, announced one after the other from
    the inning of [w], and [extra] more (0 or 1) was begun; each completed
    inning added the fatigue step to both pitchers; [l] is what the
    console received. *)
Record progress (n extra : Z) (l : list Event) (w w' : World) : Prop :=
  mk_progress {
  pr_count : 0 <= n;
  pr_inning : inning (engine w') = inning (engine w) + n;
  pr_home_fatigue :
    (home_pitcher_fatigue (engine w')
     == home_pitcher_fatigue (engine w) + inject_Z n * FATIGUE_STEP)%Q;
  pr_away_fatigue :
    (away_pitcher_fatigue (engine w')
     == away_pitcher_fatigue (engine w) + inject_Z n * FATIGUE_STEP)%Q;
  pr_teams :
    home_team (engine w') = home_team (engine w)
    /\ away_team (engine w') = away_team (engine w);
  pr_log : log w' = log w ++ l;
  pr_innings : innings_played l = seqZ (inning (engine w)) (n + extra)
}.

(** Why the game loop stopped in [w'], having printed [l]: its test
    failed, or the cap on the innings was hit and the game was called. *)
Definition stopped (l : list Event) (w' : World) : Prop :=
  game_goes_on (engine w') = false
  \/ (15 < inning (engine w') /\ game_goes_on (engine w') = true
      /\ GameCalled ∈ l).

(** The world once [play] has printed its two opening lines. *)
Definition opened (w : World) (ap hp : Pitcher.t) : World :=
  set_log w ((log w ++ [PlayBall (code (teams w (away_team (engine w))))
                          (code (teams w (home_team (engine w))))])
             ++ [PitchingMatchup (Pitcher.name ap) (Pitcher.name hp)]).

(** The final score of [w'] is among the lines [l]. *)
Definition final_score_reported (l : list Event) (w' : World) : Prop :=
  exists a h,
    FinalScore a (away_score (engine w')) h (home_score (engine w')) ∈ l.

(** ** Rosters, scores and the batting order through a game *)

(** Two states of a team that differ at most in the batter index. *)
Definition same_roster (t t' : Team) : Prop :=
  code t' = code t /\ batters t' = batters t
  /\ pitchers t' = pitchers t /\ defense t' = defense t.

(** The team has a batter index, and it lies between 0 and 8. *)
Definition index_ok (t : Team) : Prop :=
  exists i, current_batter_index t = Some i /\ 0 <= i < 9.

(** The team has not batted yet, or its batter index lies between 0 and
    8. *)
Definition index_fine (t : Team) : Prop :=
  current_batter_index t = None \/ index_ok t.

(** [tame is_home w w']: from [w] to [w'], with the side [is_home] at bat,
    no roster has changed, no batter index has left the range 0 to 8, the
    batting side has lost no run and the score of the other side is the
    same. *)
Record tame (is_home : bool) (w w' : World) : Prop := mk_tame {
  tm_roster : forall r, same_roster (teams w r) (teams w' r);
  tm_index_ok : forall r, index_ok (teams w r) -> index_ok (teams w' r);
  tm_index_fine : forall r, index_fine (teams w r) -> index_fine (teams w' r);
  tm_batting : batting_score is_home w <= batting_score is_home w';
  tm_fielding :
    batting_score (negb is_home) w' = batting_score (negb is_home) w
}.

(** The same over several half-innings: neither score has gone down. *)
Record steady (w w' : World) : Prop := mk_steady {
  st_roster : forall r, same_roster (teams w r) (teams w' r);
  st_index_ok : forall r, index_ok (teams w r) -> index_ok (teams w' r);
  st_index_fine : forall r, index_fine (teams w r) -> index_fine (teams w' r);
  st_home : home_score (engine w) <= home_score (engine w');
  st_away : away_score (engine w) <= away_score (engine w')
}.

(** The bases are three binary slots. *)
Definition binary (bases : list Z) : Prop :=
  exists f s t, bases = bases_of f s t.

(** The failure, if any, is a loop that ran out of fuel. *)
Definition only_fuel {A : Type} (r : res A) : Prop :=
  match r with
  | Ok _ _ => True
  | Fail (OutOfFuel _) _ => True
  | Fail _ _ => False
  end.

(** A team that can bat through a game: at least nine batters, and a batter
    index that is absent or between 0 and 8. *)
Definition can_bat (t : Team) : Prop :=
  (9 <= length (batters t))%nat /\ index_fine t.

(** A world in which a game can be played: both pitchers are there and both
    teams can bat. *)
Definition ready (w : World) : Prop :=
  home_pitcher (engine w) <> None
  /\ away_pitcher (engine w) <> None
  /\ can_bat (teams w (home_team (engine w)))
  /\ can_bat (teams w (away_team (engine w))).

(** The line that [declare_winner] prints last. *)
Definition verdict (w : World) : Event :=
  if home_score (engine w) >? away_score (engine w)
  then Wins (code (teams w (home_team (engine w))))
  else if away_score (engine w) >? home_score (engine w)
       then Wins (code (teams w (away_team (engine w))))
       else Tie.

(** ** Building the league ([utils.py], [classes.py]) *)

(** [Team(code)]: [Team.__init__] *)
Definition new_team (code : string) : Team :=
  {| code := code; batters := []; pitchers := []; defense := 0;
     current_batter_index := None |}.

(** [Team.add_batter] *)
Definition add_batter (t : Team) (batter : Batter.t) : Team :=
  {| code := code t; batters := batters t ++ [batter]; pitchers := pitchers t;
     defense := defense t; current_batter_index := current_batter_index t |}.

(** [Team.add_pitcher] *)
Definition add_pitcher (t : Team) (pitcher : Pitcher.t) : Team :=
  {| code := code t; batters := batters t; pitchers := pitchers t ++ [pitcher];
     defense := defense t; current_batter_index := current_batter_index t |}.

(** [s.endswith(suffix)] *)
Fixpoint endswith (s suffix : string) : bool :=
  if String.eqb s suffix then true
  else match s with
       | EmptyString => false
       | String _ s' => endswith s' suffix
       end.

(** The test [not code or code.endswith("TM")] of [create_league]: the
    players of such a code are skipped. *)
Definition skipped (code : string) : bool :=
  String.eqb code "" || endswith code "TM".

(** What [create_league] does with one player of team [code]: [add] is the
    method that puts the player on the team. *)
Definition league_add (add : Team -> Team) (code : string)
    (league : gmap string Team) : gmap string Team :=
  if skipped code then league
  else
    let league :=
      match league !! code with
      | Some _ => league
      | None => <[code := new_team code]> league
      end in
    alter add code league.

(** [create_league] *)
Definition create_league (batters : list Batter.t) (pitchers : list Pitcher.t)
  : gmap string Team :=
  let league := ∅ in
  let league :=
    foldl (fun league batter =>
             league_add (fun t => add_batter t batter) (Batter.team batter) league)
          league batters in
  foldl (fun league pitcher =>
           league_add (fun t => add_pitcher t pitcher) (Pitcher.team pitcher) league)
        league pitchers.

(** ** Looking up a team and printing the matchup ([project.py]) *)

(** Python strings are modelled by their bytes; [upper] and [strip] below
    are Python's [str.upper] and [str.strip] on strings of ASCII
    characters. *)
Definition is_ascii_char (c : ascii) : bool := (nat_of_ascii c <? 128)%nat.

Definition is_lower (c : ascii) : bool :=
  ((97 <=? nat_of_ascii c) && (nat_of_ascii c <=? 122))%nat.

(** The ASCII characters for which [str.isspace] holds: tab, line feed,
    vertical tab, form feed, carriage return, the four separators 28 to 31
    and the space. *)
Definition is_space (c : ascii) : bool :=
  ((9 <=? nat_of_ascii c) && (nat_of_ascii c <=? 13)
   || (28 <=? nat_of_ascii c) && (nat_of_ascii c <=? 32))%nat.

Definition to_upper (c : ascii) : ascii :=
  if is_lower c then ascii_of_nat (nat_of_ascii c - 32) else c.

Fixpoint is_ascii (s : string) : bool :=
  match s with
  | EmptyString => true
  | String c s' => is_ascii_char c && is_ascii s'
  end.

(** [s.upper()] *)
Fixpoint upper (s : string) : string :=
  match s with
  | EmptyString => EmptyString
  | String c s' => String (to_upper c) (upper s')
  end.

(** [s.lstrip()] *)
Fixpoint lstrip (s : string) : string :=
  match s with
  | EmptyString => EmptyString
  | String c s' => if is_space c then lstrip s' else s
  end.

(** [s.rstrip()] *)
Fixpoint rstrip (s : string) : string :=
  match s with
  | EmptyString => EmptyString
  | String c s' =>
      match rstrip s' with
      | EmptyString => if is_space c then EmptyString else String c EmptyString
      | r => String c r
      end
  end.

(** [s.strip()] *)
Definition strip (s : string) : string := rstrip (lstrip s).

(** [get_team_object] *)
Definition get_team_object (league : gmap string Team) (code : string)
  : option Team :=
  let code := strip (upper code) in
  match league !! code with
  | Some t => Some t
  | None => None
  end.

(** The string has a lower-case ASCII letter. *)
Fixpoint has_lower (s : string) : bool :=
  match s with
  | EmptyString => false
  | String c s' => is_lower c || has_lower s'
  end.

(** The string begins, or ends, with white space. *)
Definition starts_with_space (s : string) : bool :=
  match s with
  | EmptyString => false
  | String c _ => is_space c
  end.

Fixpoint ends_with_space (s : string) : bool :=
  match s with
  | EmptyString => false
  | String c EmptyString => is_space c
  | String _ s' => ends_with_space s'
  end.

(** ["=" * n] *)
Fixpoint repeat_string (s : string) (n : nat) : string :=
  match n with
  | O => EmptyString
  | S n' => (s ++ repeat_string s n')%string
  end.

Definition newline : string := String (ascii_of_nat 10) EmptyString.

(** [sep.join(lines)] *)
Fixpoint join (sep : string) (lines : list string) : string :=
  match lines with
  | [] => EmptyString
  | [l] => l
  | l :: ls => (l ++ sep ++ join sep ls)%string
  end.

(** [format_matchup_header] *)
Definition format_matchup_header (away_name home_name stadium_name : string)
  : string :=
  let lines := [] in
  let lines := lines ++ [(newline ++ repeat_string "=" 60)%string] in
  let lines :=
    lines ++ [(" ⚾ MATCHUP SET: " ++ away_name ++ " @ " ++ home_name)%string] in
  let lines := lines ++ [(" 🏟  VENUE: " ++ stadium_name)%string] in
  let lines := lines ++ [repeat_string "=" 60] in
  join newline lines.

(** [x in s] for strings. *)
Definition contains (s x : string) : Prop :=
  exists pre post, s = (pre ++ x ++ post)%string.

(** The league of the repository's test of [get_team_object]. *)
Definition fake_league : gmap string Team :=
  <["NYY" := new_team "NYY"]> (<["BOS" := new_team "BOS"]> ∅).

(** ** A half-inning of three outs *)

(** The world after a plate appearance of team [bt], whose batter index
    was [i], that took one draw and ended in an out. *)
Definition after_out (w : World) (bt : TeamRef) (i : Z) : World :=
  set_teams (set_draw_pos w (S (draw_pos w)))
    (fun r => if Nat.eqb r bt
              then set_current_batter_index (teams w r) ((i + 1) `mod` 9)
              else teams w r).

(** * Properties *)

(** ** Basic facts about the embedding *)

Lemma Qltb_lt (x y : Q) : Qltb x y = true <-> (x < y)%Q.
Proof. unfold Qltb, Qlt. apply Z.ltb_lt. Qed.

Lemma Qltb_ge (x y : Q) : Qltb x y = false <-> (y <= x)%Q.
Proof. unfold Qltb, Qle. rewrite Z.ltb_ge. reflexivity. Qed.

Lemma bind_Ok {A B : Type} (m : M A) (k : A -> M B) (w w' : World) (a : A) :
  m w = Ok a w' -> (m ≫= k) w = k a w'.
Proof. intros H. unfold mbind, M_bind, bind. now rewrite H. Qed.

Lemma bind_Fail {A B : Type} (m : M A) (k : A -> M B) (w w' : World) (f : failure) :
  m w = Fail f w' -> (m ≫= k) w = Fail f w'.
Proof. intros H. unfold mbind, M_bind, bind. now rewrite H. Qed.

(** ** The base state machine *)

(** Runs one play on explicit bases: the engine's code is evaluated up to
    the update of the score, which is then read off. *)
Ltac run_play :=
  match goal with
  | |- play_effect ?h ?w (apply_result ?b ?r ?h ?o ?bs ?w) = ?rhs =>
      let t := eval cbv -[add_runs] in (apply_result b r h o bs w) in
      let rhs' := eval cbv in rhs in
      change (play_effect h w t = rhs')
  end;
  unfold play_effect, add_runs, modify_self, modify, batting_score; simpl;
  repeat (f_equal; try lia).

(** C1. For every occupancy of the three bases and every side, a hit worth
    N bases (N = 1, 2, 3) leaves the outs alone, moves the runners and the
    batter to the places the specification names and scores one run per
    runner who reaches home; a home run empties the bases and scores the
    runners on base plus the batter; the other side's score never moves.
    With only first base occupied, a double gives bases [0,1,1] and no
    run. *)
Theorem hit_transition (first second third is_home : bool) (batter : Batter.t)
    (outs : Z) (w : World) :
  Forall (fun N =>
      play_effect is_home w
        (apply_result batter (hit N) is_home outs (bases_of first second third) w)
      = Some (outs, (spec_hit N first second third).1,
              (spec_hit N first second third).2, 0))
    [1; 2; 3]
  /\ play_effect is_home w
       (apply_result batter HR is_home outs (bases_of first second third) w)
     = Some (outs, (spec_home_run first second third).1,
             (spec_home_run first second third).2, 0)
  /\ play_effect is_home w (apply_result batter DOUBLE is_home outs [1; 0; 0] w)
     = Some (outs, [0; 1; 1], 0, 0).
Proof.
  destruct w as [[] ].
  split; [|split].
  - repeat constructor; cbv beta;
      destruct first, second, third, is_home; run_play.
  - destruct first, second, third, is_home; run_play.
  - destruct is_home; run_play.
Qed.

(** C2. For every occupancy of the three bases and every side, a walk puts
    the batter on first, moves the runner on first to second only when
    first was occupied, the runner on second to third only when first and
    second were occupied, and scores the runner on third (one run) only
    when the bases were loaded; nothing else changes.  [1,0,0] becomes
    [1,1,0] with no run and [1,1,1] stays [1,1,1] with one run. *)
Theorem walk_transition (first second third is_home : bool) (batter : Batter.t)
    (outs : Z) (w : World) :
  play_effect is_home w
    (apply_result batter WALK is_home outs (bases_of first second third) w)
  = Some (outs, (spec_walk first second third).1,
          (spec_walk first second third).2, 0)
  /\ play_effect is_home w (apply_result batter WALK is_home outs [1; 0; 0] w)
     = Some (outs, [1; 1; 0], 0, 0)
  /\ play_effect is_home w (apply_result batter WALK is_home outs [1; 1; 1] w)
     = Some (outs, [1; 1; 1], 1, 0).
Proof.
  destruct w as [[] ].
  split; [|split].
  - destruct first, second, third, is_home; run_play.
  - destruct is_home; run_play.
  - destruct is_home; run_play.
Qed.

Lemma apply_result_effect (result : Outcome) (first second third is_home : bool)
    (batter : Batter.t) (outs : Z) (w : World) :
  play_effect is_home w
    (apply_result batter result is_home outs (bases_of first second third) w)
  = Some (outs_after result outs, (spec_play result first second third).1,
          (spec_play result first second third).2, 0).
Proof.
  destruct w as [[] ].
  destruct result, first, second, third, is_home; run_play.
Qed.

Lemma spec_play_binary (result : Outcome) (first second third : bool) :
  exists f s t, (spec_play result first second third).1 = bases_of f s t.
Proof.
  destruct result, first, second, third;
    first [ now exists false, false, false | now exists false, false, true
          | now exists false, true, false | now exists false, true, true
          | now exists true, false, false | now exists true, false, true
          | now exists true, true, false | now exists true, true, true ].
Qed.

Lemma spec_play_counts (result : Outcome) (first second third : bool) :
  let before := occupied (bases_of first second third) in
  let after := occupied (spec_play result first second third).1 in
  let runs := (spec_play result first second third).2 in
  0 <= before <= 3 /\ 0 <= after <= 3 /\ 0 <= runs
  /\ after <= before + 1 /\ runs + after <= before + 1.
Proof.
  destruct result, first, second, third; vm_compute; intuition discriminate.
Qed.

Lemma reachable_bases_binary (bases : list Z) :
  reachable_bases bases -> exists f s t, bases = bases_of f s t.
Proof.
  induction 1 as [|bases bases' batter result is_home outs outs' w w' _ IH E].
  - now exists false, false, false.
  - destruct IH as (f & s & t & ->).
    pose proof (apply_result_effect result f s t is_home batter outs w) as P.
    rewrite E in P. cbn in P. injection P as _ -> _ _.
    apply spec_play_binary.
Qed.

(** C4. From every base state that a half-inning can reach, every outcome
    of a play is applied without error and leaves three binary slots; the
    number of occupied bases is between 0 and 3 before and after, grows by
    at most one, and the runs scored on the play plus the runners left on
    base are at most the runners before the play plus one, the batter. *)
Theorem play_invariants (bases : list Z) (batter : Batter.t) (result : Outcome)
    (is_home : bool) (outs : Z) (w : World) :
  reachable_bases bases ->
  exists outs' bases' runs,
    play_effect is_home w (apply_result batter result is_home outs bases w)
    = Some (outs', bases', runs, 0)
    /\ reachable_bases bases'
    /\ (exists f s t, bases' = bases_of f s t)
    /\ 0 <= occupied bases <= 3
    /\ 0 <= occupied bases' <= 3
    /\ occupied bases' <= occupied bases + 1
    /\ runs + occupied bases' <= occupied bases + 1.
Proof.
  intros R. destruct (reachable_bases_binary bases R) as (f & s & t & ->).
  pose proof (apply_result_effect result f s t is_home batter outs w) as P.
  pose proof (spec_play_counts result f s t) as C. cbv zeta in C.
  exists (outs_after result outs), (spec_play result f s t).1,
         (spec_play result f s t).2.
  split; [exact P|]. split.
  - destruct (apply_result batter result is_home outs (bases_of f s t) w)
      as [[o b] w'|] eqn:E; [|discriminate].
    cbn in P. injection P as _ -> _ _.
    eapply reachable_play; eauto.
  - split; [apply spec_play_binary|]. intuition lia.
Qed.

Lemma play_invariants_witness :
  reachable_bases [0; 0; 0]
  /\ exists outs' bases' runs,
       play_effect false (Sample.world 9 Sample.all_outs)
         (apply_result Sample.batter SINGLE false 0 [0; 0; 0]
            (Sample.world 9 Sample.all_outs))
       = Some (outs', bases', runs, 0)
       /\ reachable_bases bases'
       /\ (exists f s t, bases' = bases_of f s t)
       /\ 0 <= occupied [0; 0; 0] <= 3
       /\ 0 <= occupied bases' <= 3
       /\ occupied bases' <= occupied [0; 0; 0] + 1
       /\ runs + occupied bases' <= occupied [0; 0; 0] + 1.
Proof.
  split; [apply reachable_start|].
  apply (play_invariants [0; 0; 0] Sample.batter SINGLE false 0
           (Sample.world 9 Sample.all_outs)).
  apply reachable_start.
Defined.

(** ** The at-bat resolver *)


Lemma py_clamp (x lo hi : Q) :
  (lo <= hi)%Q -> (py_max lo (py_min hi x) == clamp x lo hi)%Q.
Proof.
  intros H. unfold py_max, py_min, clamp.
  destruct (Qltb x hi) eqn:E1.
  - apply Qltb_lt in E1.
    destruct (Qltb lo x) eqn:E2, (Qltb x lo) eqn:E3, (Qltb hi x) eqn:E4;
      rewrite ?Qltb_lt, ?Qltb_ge in *; lra.
  - apply Qltb_ge in E1.
    destruct (Qltb lo hi) eqn:E2, (Qltb x lo) eqn:E3, (Qltb hi x) eqn:E4;
      rewrite ?Qltb_lt, ?Qltb_ge in *; lra.
Qed.

Lemma clamp_bounds (x lo hi : Q) :
  (lo <= hi)%Q -> (lo <= clamp x lo hi <= hi)%Q.
Proof.
  intros H. unfold clamp.
  destruct (Qltb x lo) eqn:E1; [lra|].
  destruct (Qltb hi x) eqn:E2; [lra|].
  rewrite Qltb_ge in *. lra.
Qed.

Lemma adjusted_obp_spec (obp whip fatigue : Q) :
  (adjusted_obp obp whip fatigue == spec_adjusted_obp obp whip fatigue)%Q.
Proof.
  unfold adjusted_obp, spec_adjusted_obp, AVG_WHIP, WHIP_COEFF. cbv zeta.
  apply py_clamp. lra.
Qed.


Ltac munfold :=
  unfold mbind, M_bind, bind, mret, M_ret, ret, print, modify_self, modify,
    raise, self, get, deref, random, team_of, update_team in *.


(** ** What the plays of an inning leave alone *)

Lemma frame_refl (w : World) : frame w w.
Proof.
  constructor; try reflexivity. exists []. now rewrite app_nil_r.
Qed.

Lemma grows_trans (ns1 ns2 : list Z) (w1 w2 w3 : World) :
  grows ns1 w1 w2 -> grows ns2 w2 w3 -> grows (ns1 ++ ns2) w1 w3.
Proof.
  intros [] []. constructor; try congruence; try lia.
  destruct fr_log0 as (l1 & E1 & P1), fr_log1 as (l2 & E2 & P2).
  exists (l1 ++ l2). split.
  - now rewrite E2, E1, app_assoc.
  - unfold innings_played in *. now rewrite omap_app, P1, P2.
Qed.

Lemma frame_trans (w1 w2 w3 : World) : frame w1 w2 -> frame w2 w3 -> frame w1 w3.
Proof. apply (grows_trans [] []). Qed.

Lemma preserves_ret {A : Type} (a : A) : preserves (mret a).
Proof. intros w. split; [apply frame_refl|discriminate]. Qed.

Lemma preserves_raise {A : Type} (f : failure) :
  f <> OutOfFuel GameLoop -> preserves (raise f : M A).
Proof. intros H w. split; [apply frame_refl|cbn; congruence]. Qed.

Lemma preserves_bind {A B : Type} (m : M A) (k : A -> M B) :
  preserves m -> (forall a, preserves (k a)) -> preserves (m ≫= k).
Proof.
  intros Hm Hk w. specialize (Hm w). unfold mbind, M_bind, bind.
  destruct (m w) as [a w1|f w1]; cbn in *; [|assumption].
  destruct Hm as [Hm _], (Hk a w1) as [Hk1 Hk2].
  split; [eapply frame_trans; eassumption|assumption].
Qed.

Lemma preserves_step {A : Type} (m : M A) :
  (forall w, exists a w', m w = Ok a w' /\ frame w w') -> preserves m.
Proof.
  intros H w. destruct (H w) as (a & w' & -> & F). split; [exact F|discriminate].
Qed.

Lemma preserves_self : preserves self.
Proof. apply preserves_step. intros w. exists (engine w), w. split; [reflexivity|apply frame_refl]. Qed.

Lemma preserves_team_of (r : TeamRef) : preserves (team_of r).
Proof.
  apply preserves_step. intros w. exists (teams w r), w.
  split; [reflexivity|apply frame_refl].
Qed.

Lemma preserves_deref {A : Type} (o : option A) : preserves (deref o).
Proof. destruct o; [apply preserves_ret|now apply preserves_raise]. Qed.

Lemma preserves_py_getitem {A : Type} (l : list A) (i : Z) :
  preserves (py_getitem l i).
Proof.
  unfold py_getitem. destruct (py_index l i); [|now apply preserves_raise].
  destruct (l !! n); [apply preserves_ret|now apply preserves_raise].
Qed.

Lemma preserves_py_setitem {A : Type} (l : list A) (i : Z) (x : A) :
  preserves (py_setitem l i x).
Proof.
  unfold py_setitem. destruct (py_index l i);
    [apply (preserves_ret (<[n:=x]> l))|now apply preserves_raise].
Qed.

Lemma preserves_random : preserves random.
Proof.
  apply preserves_step. intros w. eexists _, _. split; [reflexivity|].
  constructor; cbn; try reflexivity; try lia.
  exists []. now rewrite app_nil_r.
Qed.

Lemma preserves_update_team (r : TeamRef) (f : Team -> Team) :
  preserves (update_team r f).
Proof.
  apply preserves_step. intros w. eexists _, _. split; [reflexivity|].
  constructor; cbn; try reflexivity.
  exists []. now rewrite app_nil_r.
Qed.

Lemma preserves_add_runs (is_home : bool) (runs : Z) :
  preserves (add_runs is_home runs).
Proof.
  apply preserves_step. intros w.
  destruct is_home; (eexists _, _; split; [reflexivity|];
    constructor; cbn; try reflexivity; exists []; now rewrite app_nil_r).
Qed.

Lemma preserves_print (e : Event) : innings_played [e] = [] -> preserves (print e).
Proof.
  intros H. apply preserves_step. intros w. eexists _, _. split; [reflexivity|].
  constructor; cbn; try reflexivity. now exists [e].
Qed.

Ltac frame_step :=
  match goal with
  | |- preserves (_ ≫= _) => apply preserves_bind; [|intros]
  | |- preserves (mret _) => apply preserves_ret
  | |- preserves (raise _) => apply preserves_raise; discriminate
  | |- preserves self => apply preserves_self
  | |- preserves random => apply preserves_random
  | |- preserves (team_of _) => apply preserves_team_of
  | |- preserves (deref _) => apply preserves_deref
  | |- preserves (py_getitem _ _) => apply preserves_py_getitem
  | |- preserves (py_setitem _ _ _) => apply preserves_py_setitem
  | |- preserves (update_team _ _) => apply preserves_update_team
  | |- preserves (add_runs _ _) => apply preserves_add_runs
  | |- preserves (print _) => apply preserves_print; reflexivity
  | |- preserves (if ?b then _ else _) => destruct b
  | |- preserves (match ?x with _ => _ end) => destruct x
  end.

Lemma preserves_advance_runners (bases : list Z) (hits : Z) (is_walk is_home : bool) :
  preserves (advance_runners bases hits is_walk is_home).
Proof. unfold advance_runners. repeat frame_step. Qed.

Lemma preserves_simulate_at_bat (batter : Batter.t) (pitcher : option Pitcher.t)
    (defense_rating fatigue : Q) :
  preserves (simulate_at_bat batter pitcher defense_rating fatigue).
Proof. unfold simulate_at_bat. repeat frame_step. Qed.

Lemma preserves_apply_result (batter : Batter.t) (result : Outcome)
    (is_home : bool) (outs : Z) (bases : list Z) :
  preserves (apply_result batter result is_home outs bases).
Proof.
  unfold apply_result.
  destruct result; repeat first [apply preserves_advance_runners | frame_step].
Qed.

Lemma preserves_plate_appearance (batting_team defending_team : TeamRef)
    (lineup : list Batter.t) (pitcher : option Pitcher.t) (fatigue : Q)
    (is_home : bool) (outs : Z) (bases : list Z) :
  preserves (plate_appearance batting_team defending_team lineup pitcher
               fatigue is_home outs bases).
Proof.
  unfold plate_appearance.
  repeat first [apply preserves_simulate_at_bat | apply preserves_apply_result
               | frame_step].
Qed.

Lemma preserves_half_inning_loop (fuel : nat) (batting_team defending_team : TeamRef)
    (lineup : list Batter.t) (pitcher : option Pitcher.t) (fatigue : Q)
    (is_home : bool) (outs : Z) (bases : list Z) :
  preserves (half_inning_loop fuel batting_team defending_team lineup pitcher
               fatigue is_home outs bases).
Proof.
  revert outs bases. induction fuel as [|fuel IH]; intros outs bases; cbn.
  - now apply preserves_raise.
  - repeat first [apply preserves_plate_appearance | apply IH | frame_step].
Qed.

Lemma preserves_play_half_inning (fuel : nat) (batting_team defending_team : TeamRef)
    (pitcher : option Pitcher.t) (fatigue : Q) (is_home : bool) :
  preserves (play_half_inning fuel batting_team defending_team pitcher fatigue
               is_home).
Proof.
  unfold play_half_inning.
  repeat first [apply preserves_half_inning_loop | frame_step].
Qed.


(** ** The defense check *)

(** C10. The defense save chance has no upper bound: it is the rating
    divided by 300 whenever that is positive, and 0 for a rating that is
    negative or zero.  Against a defense rated 300 or more, whoever bats
    and pitches, whatever the fatigue and whatever the draws in [0,1),
    the resolver returns OUT: no walk, hit or home run can occur. *)
Theorem defense_300_always_out (batter : Batter.t) (p : Pitcher.t)
    (defense_rating fatigue : Q) (w : World) :
  (300 <= defense_rating)%Q ->
  (forall k, (0 <= draws w k < 1)%Q) ->
  (exists w',
      simulate_at_bat batter (Some p) defense_rating fatigue w = Ok OUT w')
  /\ defense_save_chance defense_rating = (defense_rating / 300)%Q
  /\ (1 <= defense_save_chance defense_rating)%Q
  /\ (forall d, (0 < d)%Q -> defense_save_chance d = (d / 300)%Q)
  /\ (forall d, (d <= 0)%Q -> defense_save_chance d = 0%Q).
Proof.
  intros Hd Hr.
  assert (Hpos : forall d, (0 < d)%Q -> defense_save_chance d = (d / 300)%Q).
  { intros d H. unfold defense_save_chance, py_max, DEFENSE_DIVISOR.
    destruct (Qltb 0 (d / 300)) eqn:E; [reflexivity|].
    apply Qltb_ge in E. assert (d / 300 == d * (1 # 300))%Q by (now field). lra. }
  assert (Hneg : forall d, (d <= 0)%Q -> defense_save_chance d = 0%Q).
  { intros d H. unfold defense_save_chance, py_max, DEFENSE_DIVISOR.
    destruct (Qltb 0 (d / 300)) eqn:E; [|reflexivity].
    apply Qltb_lt in E. assert (d / 300 == d * (1 # 300))%Q by (now field). lra. }
  assert (Hone : (1 <= defense_save_chance defense_rating)%Q).
  { rewrite Hpos by lra.
    assert (defense_rating / 300 == defense_rating * (1 # 300))%Q by (now field).
    lra. }
  repeat split; try assumption; [|apply Hpos; lra].
  unfold simulate_at_bat. munfold. simpl.
  destruct (Qltb _ (draws w (draw_pos w))); [eauto|]. simpl.
  destruct (Qltb (draws w (S (draw_pos w))) (defense_save_chance defense_rating)) eqn:E;
    [eauto|].
  apply Qltb_ge in E. specialize (Hr (S (draw_pos w))). lra.
Qed.

Lemma defense_300_always_out_witness :
  (exists w',
      simulate_at_bat Sample.batter (Some (Sample.pitcher "Home" 78)) 300 0
        (Sample.world 9 Sample.power_swing) = Ok OUT w')
  /\ defense_save_chance 300 = (300 / 300)%Q
  /\ (1 <= defense_save_chance 300)%Q
  /\ (forall d, (0 < d)%Q -> defense_save_chance d = (d / 300)%Q)
  /\ (forall d, (d <= 0)%Q -> defense_save_chance d = 0%Q).
Proof.
  apply (defense_300_always_out Sample.batter (Sample.pitcher "Home" 78) 300 0
           (Sample.world 9 Sample.power_swing)).
  - unfold Qle. simpl. lia.
  - intros [|[|[|k]]]; unfold Qle, Qlt; simpl; lia.
Defined.

(** ** The batting order *)

(** C5, on the code as it is: the batter index advances modulo 9 whatever
    the length of the line-up.  With two batters on the away team and
    every at-bat an out, the third plate appearance of the first
    half-inning reads [lineup[2]] in a line-up of length 2 and the
    half-inning stops with [IndexError]. *)
Theorem short_lineup_index_error :
  exists w',
    play_half_inning 10 1%nat 0%nat (Some (Sample.pitcher "Home" 78)) 0 false
      (Sample.world 2 Sample.all_outs) = Fail IndexError w'
    /\ current_batter_index (teams w' 1%nat) = Some 2
    /\ length (get_starting_lineup (teams w' 1%nat)) = 2%nat
    /\ draw_pos w' = 2%nat.
Proof. eexists. split; [vm_compute; reflexivity|]. repeat split. Qed.

(** ** Roster selection *)

Lemma insert_desc_perm {A : Type} (key : A -> Q) (x : A) (l : list A) :
  Permutation (insert_desc key x l) (x :: l).
Proof.
  induction l as [|y l IH]; cbn; [reflexivity|].
  destruct (Qltb (key x) (key y)); [|reflexivity].
  rewrite IH. apply perm_swap.
Qed.

Lemma sorted_desc_perm {A : Type} (key : A -> Q) (l : list A) :
  Permutation (sorted_desc key l) l.
Proof.
  induction l as [|x l IH]; cbn; [reflexivity|].
  rewrite insert_desc_perm. now constructor.
Qed.

Lemma insert_desc_sorted {A : Type} (key : A -> Q) (x : A) (l : list A) :
  StronglySorted (desc key) l -> StronglySorted (desc key) (insert_desc key x l).
Proof.
  induction 1 as [|y l S IH F]; cbn.
  - repeat constructor.
  - destruct (Qltb (key x) (key y)) eqn:E.
    + apply Qltb_lt in E. constructor; [assumption|].
      rewrite (insert_desc_perm key x l). constructor; [|assumption].
      unfold desc. lra.
    + apply Qltb_ge in E. constructor; [now constructor|].
      constructor; [exact E|].
      eapply Forall_impl; [exact F|]. unfold desc. intros z Hz. cbn in Hz. lra.
Qed.

Lemma sorted_desc_sorted {A : Type} (key : A -> Q) (l : list A) :
  StronglySorted (desc key) (sorted_desc key l).
Proof.
  induction l as [|x l IH]; cbn; [constructor|]. now apply insert_desc_sorted.
Qed.

Lemma top3_length (pool : list Pitcher.t) :
  length (top3 pool) = Nat.min 3 (length pool).
Proof.
  unfold top3. rewrite length_take.
  now rewrite (Permutation_length (sorted_desc_perm Pitcher.overall pool)).
Qed.

(** The pitchers left out of the top three rate no higher than those in. *)
Lemma top3_best (pool : list Pitcher.t) (p q : Pitcher.t) :
  p ∈ top3 pool -> q ∈ drop 3 (sorted_desc Pitcher.overall pool) ->
  (Pitcher.overall q <= Pitcher.overall p)%Q.
Proof.
  unfold top3. intros Hp Hq.
  pose proof (sorted_desc_sorted Pitcher.overall pool) as S.
  rewrite <- (take_drop 3 (sorted_desc Pitcher.overall pool)) in S.
  revert Hp Hq S.
  generalize (take 3 (sorted_desc Pitcher.overall pool)) as l1.
  generalize (drop 3 (sorted_desc Pitcher.overall pool)) as l2.
  intros l2 l1 Hp Hq S. induction l1 as [|x l1 IH]; [inversion Hp|].
  cbn in S. inversion S as [|? ? S' F]; subst.
  apply elem_of_cons in Hp as [->|Hp].
  - rewrite Forall_forall in F. apply F. apply elem_of_app. now right.
  - now apply IH.
Qed.

Lemma py_getitem_nat {A : Type} (l : list A) (k : nat) (x : A) (w : World) :
  l !! k = Some x -> py_getitem l (Z.of_nat k) w = Ok x w.
Proof.
  intros H. unfold py_getitem, py_index.
  pose proof (lookup_lt_Some _ _ _ H) as Hk.
  destruct (Z.leb_spec 0 (Z.of_nat k)); [|lia].
  destruct (Z.ltb_spec (Z.of_nat k) (Z.of_nat (length l))); [|lia].
  cbn. rewrite Nat2Z.id, H. reflexivity.
Qed.

Lemma get_starting_pitcher_empty (r : TeamRef) (w : World) :
  pitchers (teams w r) = [] -> get_starting_pitcher r w = Ok None w.
Proof. intros H. unfold get_starting_pitcher. munfold. now rewrite H. Qed.

Lemma get_starting_pitcher_pick (r : TeamRef) (w : World) :
  pitchers (teams w r) <> [] ->
  exists p,
    top3 (pitchers (teams w r))
      !! (picks w (pick_pos w) `mod` length (top3 (pitchers (teams w r))))%nat
    = Some p
    /\ get_starting_pitcher r w = Ok (Some p) (set_pick_pos w (S (pick_pos w))).
Proof.
  intros H. unfold get_starting_pitcher. munfold.
  destruct (pitchers (teams w r)) as [|q pool'] eqn:E; [congruence|].
  set (pool := q :: pool') in *.
  assert (L : (0 < length (top3 pool))%nat).
  { rewrite top3_length. cbn. lia. }
  destruct (lookup_lt_is_Some_2 (top3 pool)
              (picks w (pick_pos w) `mod` length (top3 pool))%nat) as [p Hp].
  { apply Nat.mod_upper_bound. lia. }
  exists p. split; [exact Hp|].
  unfold randbelow. fold (top3 pool). cbn.
  erewrite py_getitem_nat by exact Hp. reflexivity.
Qed.

Lemma play_without_pitcher (k fuel : nat) (w : World) :
  home_pitcher (engine w) = None \/ away_pitcher (engine w) = None ->
  play k fuel w
  = Fail AttributeError
      (set_log w (log w ++ [PlayBall (code (teams w (away_team (engine w))))
                                     (code (teams w (home_team (engine w))))])).
Proof.
  intros H. unfold play. munfold. cbn.
  destruct (away_pitcher (engine w)) as [ap|]; [|reflexivity].
  destruct (home_pitcher (engine w)) as [hp|]; [|reflexivity].
  destruct H; discriminate.
Qed.

Lemma get_starting_pitcher_total (r : TeamRef) (w : World) :
  exists res w',
    get_starting_pitcher r w = Ok res w'
    /\ (res = None <-> pitchers (teams w r) = [])
    /\ engine w' = engine w /\ teams w' = teams w /\ draws w' = draws w
    /\ draw_pos w' = draw_pos w /\ log w' = log w.
Proof.
  destruct (pitchers (teams w r)) as [|q pool] eqn:E.
  - exists None, w. rewrite (get_starting_pitcher_empty r w E). tauto.
  - destruct (get_starting_pitcher_pick r w) as (p & _ & Hp); [congruence|].
    exists (Some p), (set_pick_pos w (S (pick_pos w))). rewrite Hp.
    repeat split; discriminate.
Qed.

Lemma start_simulation_without_pitcher (away home : TeamRef) (k fuel : nat)
    (w : World) :
  pitchers (teams w away) = [] \/ pitchers (teams w home) = [] ->
  exists w',
    start_simulation away home k fuel w = Fail AttributeError w'
    /\ draw_pos w' = draw_pos w
    /\ innings_played (log w') = innings_played (log w).
Proof.
  intros H. unfold start_simulation.
  destruct (get_starting_pitcher_total away w)
    as (ra & w1 & E1 & N1 & He1 & Ht1 & Hd1 & Hp1 & Hl1).
  destruct (get_starting_pitcher_total home w1)
    as (rh & w2 & E2 & N2 & He2 & Ht2 & Hd2 & Hp2 & Hl2).
  rewrite (bind_Ok _ _ _ _ _ E1), (bind_Ok _ _ _ _ _ E2).
  unfold print_team_summary, Engine_init. munfold. cbn.
  match goal with |- context [play k fuel ?w3] => set (w3' := w3) end.
  assert (N : home_pitcher (engine w3') = None \/ away_pitcher (engine w3') = None).
  { subst w3'. cbn. rewrite Ht1 in N2. destruct H as [H|H]; [right|left]; tauto. }
  rewrite (play_without_pitcher k fuel w3' N).
  eexists. split; [reflexivity|]. subst w3'. cbn. split; [congruence|].
  rewrite Hl2, Hl1. unfold innings_played. rewrite !omap_app. cbn.
  now rewrite !app_nil_r.
Qed.

(** C9. [get_starting_pitcher] never fails; it returns [None] exactly
    when the team has no pitcher; otherwise it returns the pitcher that
    stands, among the first three of the pool sorted by descending overall
    rating (the whole pool when it has fewer than three, and no pitcher
    left out rates higher than one kept), at the index the random
    generator picks below their number, and each of them is picked by some
    value of the generator.  A game started with a team without
    pitchers, and [play] on an engine without a pitcher, stop with
    [AttributeError] before any inning is announced and any draw taken. *)
Theorem starting_pitcher_selection (r : TeamRef) (w : World) :
  let pool := pitchers (teams w r) in
  (exists res w',
      get_starting_pitcher r w = Ok res w'
      /\ (res = None <-> pool = [])
      /\ (forall p, res = Some p ->
            top3 pool !! (picks w (pick_pos w) `mod` length (top3 pool))%nat
            = Some p))
  /\ Permutation (sorted_desc Pitcher.overall pool) pool
  /\ StronglySorted (desc Pitcher.overall) (sorted_desc Pitcher.overall pool)
  /\ length (top3 pool) = Nat.min 3 (length pool)
  /\ (forall p q,
        p ∈ top3 pool -> q ∈ drop 3 (sorted_desc Pitcher.overall pool) ->
        (Pitcher.overall q <= Pitcher.overall p)%Q)
  /\ (forall i p, top3 pool !! i = Some p ->
        exists w', get_starting_pitcher r (with_pick w i) = Ok (Some p) w')
  /\ (forall away home k fuel,
        pitchers (teams w away) = [] \/ pitchers (teams w home) = [] ->
        exists w',
          start_simulation away home k fuel w = Fail AttributeError w'
          /\ draw_pos w' = draw_pos w
          /\ innings_played (log w') = innings_played (log w))
  /\ (forall k fuel,
        home_pitcher (engine w) = None \/ away_pitcher (engine w) = None ->
        exists w',
          play k fuel w = Fail AttributeError w'
          /\ draw_pos w' = draw_pos w
          /\ innings_played (log w') = innings_played (log w)).
Proof.
  intros pool. repeat split.
  - destruct pool as [|q pool'] eqn:E; subst pool.
    + exists None, w. rewrite (get_starting_pitcher_empty r w E).
      repeat split; discriminate.
    + destruct (get_starting_pitcher_pick r w) as (p & Hp & Hg); [congruence|].
      rewrite E in Hp.
      exists (Some p), (set_pick_pos w (S (pick_pos w))). rewrite Hg.
      repeat split; try discriminate. intros p' [= <-]. exact Hp.
  - apply sorted_desc_perm.
  - apply sorted_desc_sorted.
  - apply top3_length.
  - apply top3_best.
  - intros i p Hi.
    destruct (get_starting_pitcher_pick r (with_pick w i)) as (p' & Hp & Hg).
    { cbn. fold pool. intros E. rewrite E in Hi. discriminate. }
    cbn in Hp. fold pool in Hp.
    rewrite Nat.mod_small in Hp by (eapply lookup_lt_Some; exact Hi).
    rewrite Hg. assert (p' = p) as -> by congruence. eauto.
  - intros away home k fuel H. now apply start_simulation_without_pitcher.
  - intros k fuel H. rewrite (play_without_pitcher k fuel w H).
    eexists. split; [reflexivity|]. cbn. split; [reflexivity|].
    unfold innings_played. rewrite omap_app. cbn. now rewrite app_nil_r.
Qed.

(** ** Innings *)

Lemma preserves_bottom_of_inning (fuel : nat) : preserves (bottom_of_inning fuel).
Proof.
  unfold bottom_of_inning, print_score.
  repeat first [apply preserves_play_half_inning | frame_step].
Qed.

Lemma grows_announced (w : World) : grows [inning (engine w)] w (announced w).
Proof.
  constructor; cbn; try reflexivity. now exists [TopOf (inning (engine w))].
Qed.

Lemma top_of_inning_unfold (fuel : nat) (w : World) :
  top_of_inning fuel w
  = play_half_inning fuel (away_team (engine w)) (home_team (engine w))
      (home_pitcher (engine w)) (home_pitcher_fatigue (engine w)) false
      (announced w).
Proof. reflexivity. Qed.

Lemma top_of_inning_grows (fuel : nat) (w : World) :
  grows [inning (engine w)] w (final (top_of_inning fuel w))
  /\ failure_of (top_of_inning fuel w) <> Some (OutOfFuel GameLoop).
Proof.
  rewrite top_of_inning_unfold.
  destruct (preserves_play_half_inning fuel (away_team (engine w))
              (home_team (engine w)) (home_pitcher (engine w))
              (home_pitcher_fatigue (engine w)) false (announced w)) as [F N].
  split; [|exact N].
  apply (grows_trans [inning (engine w)] [] w (announced w));
    [apply grows_announced|exact F].
Qed.

Lemma play_inning_grows (fuel : nat) (w : World) :
  grows [inning (engine w)] w (final (play_inning fuel w))
  /\ failure_of (play_inning fuel w) <> Some (OutOfFuel GameLoop).
Proof.
  destruct (top_of_inning_grows fuel w) as [G N].
  unfold play_inning.
  destruct (top_of_inning fuel w) as [[] w1|f w1] eqn:E; cbn in G, N;
    [rewrite (bind_Ok _ _ _ _ _ E)|rewrite (bind_Fail _ _ _ _ _ E); now split].
  assert (P : preserves (e ← self;
                         if (inning e >=? 9) && (home_score e >? away_score e)
                         then mret tt else bottom_of_inning fuel)).
  { repeat first [apply preserves_bottom_of_inning | frame_step]. }
  destruct (P w1) as [F N1]. split; [|exact N1].
  apply (grows_trans [inning (engine w)] [] w w1); assumption.
Qed.

Lemma end_of_inning_unfold (w : World) :
  end_of_inning w
  = Ok tt (set_engine w
             {| home_team := home_team (engine w);
                away_team := away_team (engine w);
                home_pitcher := home_pitcher (engine w);
                away_pitcher := away_pitcher (engine w);
                home_score := home_score (engine w);
                away_score := away_score (engine w);
                inning := inning (engine w) + 1;
                home_pitcher_fatigue :=
                  (home_pitcher_fatigue (engine w) + FATIGUE_STEP)%Q;
                away_pitcher_fatigue :=
                  (away_pitcher_fatigue (engine w) + FATIGUE_STEP)%Q |}).
Proof. reflexivity. Qed.

Lemma fatigue_zero (f : Q) : (f == f + inject_Z 0 * FATIGUE_STEP)%Q.
Proof. change (inject_Z 0) with 0%Q. lra. Qed.

Lemma fatigue_succ (f : Q) (n : Z) :
  (f + FATIGUE_STEP + inject_Z n * FATIGUE_STEP
   == f + inject_Z (n + 1) * FATIGUE_STEP)%Q.
Proof. rewrite inject_Z_plus. change (inject_Z 1) with 1%Q. lra. Qed.

Lemma progress_none (w : World) : progress 0 0 [] w w.
Proof.
  constructor; try apply fatigue_zero; try lia; try tauto.
  now rewrite app_nil_r.
Qed.

Lemma progress_begun (w w' : World) :
  grows [inning (engine w)] w w' -> exists l, progress 0 1 l w w'.
Proof.
  intros []. destruct fr_log0 as (l & E & P). exists l.
  constructor; try lia; try tauto.
  - rewrite fr_home_fatigue0. apply fatigue_zero.
  - rewrite fr_away_fatigue0. apply fatigue_zero.
Qed.

Lemma progress_inning (n extra : Z) (l : list Event) (w w1 w2 w' : World) :
  0 <= extra ->
  grows [inning (engine w)] w w1 ->
  end_of_inning w1 = Ok tt w2 ->
  progress n extra l w2 w' ->
  exists l1, progress (n + 1) extra (l1 ++ l) w w'.
Proof.
  intros Hx [] E []. rewrite end_of_inning_unfold in E. injection E as <-.
  cbn in *. destruct fr_log0 as (l1 & E1 & P1). exists l1.
  constructor; try lia; try (destruct pr_teams0; split; congruence).
  - rewrite pr_home_fatigue0, fr_home_fatigue0. apply fatigue_succ.
  - rewrite pr_away_fatigue0, fr_away_fatigue0. apply fatigue_succ.
  - now rewrite pr_log0, E1, app_assoc.
  - unfold innings_played in *. rewrite omap_app, P1, pr_innings0, fr_inning0.
    replace (n + 1 + extra) with (Z.succ (n + extra)) by lia.
    rewrite (seqZ_cons (inning (engine w))) by lia.
    now replace (Z.pred (Z.succ (n + extra))) with (n + extra) by lia.
Qed.

Lemma game_loop_unfold (k fuel : nat) (w : World) :
  game_loop (S k) fuel w
  = if game_goes_on (engine w) then
      if inning (engine w) >? 15 then print GameCalled w
      else (play_inning fuel;; end_of_inning;; game_loop k fuel) w
    else Ok tt w.
Proof.
  cbn. munfold.
  destruct (game_goes_on (engine w)); [|reflexivity].
  destruct (inning (engine w) >? 15); reflexivity.
Qed.

Lemma game_loop_spec (fuel k : nat) (w : World) :
  (Z.to_nat (16 - inning (engine w)) < k)%nat ->
  match game_loop k fuel w with
  | Ok _ w' =>
      exists n l,
        progress n 0 l w w'
        /\ inning (engine w') <= Z.max 16 (inning (engine w))
        /\ stopped l w'
  | Fail f w' =>
      f <> OutOfFuel GameLoop
      /\ exists n l, progress n 1 l w w' /\ inning (engine w') <= 15
  end.
Proof.
  revert w. induction k as [|k IH]; intros w Hk; [lia|].
  rewrite game_loop_unfold.
  destruct (game_goes_on (engine w)) eqn:G.
  - destruct (Z.gtb_spec (inning (engine w)) 15) as [Hi|Hi].
    + cbn. exists 0, [GameCalled]. split; [|split].
      * constructor; cbn; try apply fatigue_zero; try lia; tauto.
      * lia.
      * right. cbn. rewrite G. repeat split; [lia|]. apply list_elem_of_singleton. reflexivity.
    + destruct (play_inning_grows fuel w) as [P N].
      destruct (play_inning fuel w) as [[] w1|f w1] eqn:E; cbn in P, N.
      * rewrite (bind_Ok _ _ _ _ _ E).
        destruct (end_of_inning w1) as [[] w2|f w2] eqn:E2;
          [|rewrite end_of_inning_unfold in E2; discriminate].
        rewrite (bind_Ok _ _ _ _ _ E2).
        assert (I2 : inning (engine w2) = inning (engine w) + 1).
        { rewrite end_of_inning_unfold in E2. injection E2 as <-. cbn.
          now rewrite (fr_inning _ _ _ P). }
        specialize (IH w2). rewrite I2 in IH.
        destruct (game_loop k fuel w2) as [[] w'|f w'].
        -- destruct IH as (n & l & Hn & Hb & Hs); [lia|].
           destruct (progress_inning n 0 l w w1 w2 w') as (l1 & Hp);
             [lia|assumption..|].
           exists (n + 1), (l1 ++ l). split; [exact Hp|]. split; [lia|].
           destruct Hs as [Hs|(H1 & H2 & H3)]; [now left|right].
           repeat split; try assumption. apply elem_of_app. now right.
        -- destruct IH as (Hf & n & l & Hn & Hb); [lia|].
           destruct (progress_inning n 1 l w w1 w2 w') as (l1 & Hp);
             [lia|assumption..|].
           split; [exact Hf|]. exists (n + 1), (l1 ++ l). now split.
      * rewrite (bind_Fail _ _ _ _ _ E).
        split; [congruence|].
        destruct (progress_begun w w1 P) as (l & Hl).
        exists 0, l. split; [exact Hl|]. rewrite (fr_inning _ _ _ P). lia.
  - exists 0, []. split; [|split].
    + apply progress_none.
    + lia.
    + now left.
Qed.

Lemma innings_played_app (l1 l2 : list Event) :
  innings_played (l1 ++ l2) = innings_played l1 ++ innings_played l2.
Proof. apply omap_app. Qed.

Lemma declare_winner_effect (w : World) :
  exists e,
    declare_winner w
    = Ok tt (set_log w
               ((log w ++ [FinalScore (code (teams w (away_team (engine w))))
                             (away_score (engine w))
                             (code (teams w (home_team (engine w))))
                             (home_score (engine w))]) ++ [e]))
    /\ innings_played [e] = [].
Proof.
  unfold declare_winner. munfold. cbn.
  destruct (home_score (engine w) >? away_score (engine w));
    [|destruct (away_score (engine w) >? home_score (engine w))];
    eexists; split; reflexivity.
Qed.

Lemma play_unfold (k fuel : nat) (w : World) (ap hp : Pitcher.t) :
  away_pitcher (engine w) = Some ap ->
  home_pitcher (engine w) = Some hp ->
  play k fuel w = (game_loop k fuel;; declare_winner) (opened w ap hp).
Proof.
  intros Ha Hh. unfold play. munfold. cbn. rewrite Ha, Hh. reflexivity.
Qed.

(** C7. A game that starts in inning 1 with both pitchers present and at
    least 16 iterations of fuel for the game loop never stops for lack of
    that fuel, whatever the draws.  When every half-inning comes to its
    end, [play] returns: the innings announced are 1, 2, ... up to the
    last one played, at least 9 and at most 15 of them; the game stopped
    either with different scores after the ninth inning or later, or,
    still tied after the fifteenth, by being called; and the final score
    is printed as it stands.  When a half-inning does not come to its end,
    that happens in an inning numbered at most 15.  At every turn of the
    loop another inning is played exactly when the inning number is at
    most 9 or the scores are tied, and the inning number is at most 15. *)
Theorem game_ends_by_inning_15 (k fuel : nat) (w : World) (ap hp : Pitcher.t) :
  inning (engine w) = 1 ->
  away_pitcher (engine w) = Some ap ->
  home_pitcher (engine w) = Some hp ->
  (16 <= k)%nat ->
  match play k fuel w with
  | Ok _ w' =>
      exists l,
        log w' = log w ++ l
        /\ innings_played l = seqZ 1 (inning (engine w') - 1)
        /\ 10 <= inning (engine w') <= 16
        /\ Forall (fun n => 1 <= n <= 15) (innings_played l)
        /\ (home_score (engine w') <> away_score (engine w')
            \/ (inning (engine w') = 16
                /\ home_score (engine w') = away_score (engine w')
                /\ GameCalled ∈ l))
        /\ final_score_reported l w'
  | Fail f w' =>
      f <> OutOfFuel GameLoop
      /\ exists l,
           log w' = log w ++ l
           /\ innings_played l = seqZ 1 (inning (engine w'))
           /\ 1 <= inning (engine w') <= 15
  end
  /\ (forall k' w0,
        game_loop (S k') fuel w0
        = if game_goes_on (engine w0) && (inning (engine w0) <=? 15)
          then (play_inning fuel;; end_of_inning;; game_loop k' fuel) w0
          else if game_goes_on (engine w0) then print GameCalled w0
               else Ok tt w0)
  /\ (forall e, game_goes_on e = true
                <-> inning e <= 9 \/ away_score e = home_score e).
Proof.
  intros Hi Ha Hh Hk. split; [|split].
  - rewrite (play_unfold k fuel w ap hp Ha Hh).
    pose proof (game_loop_spec fuel k (opened w ap hp)) as G.
    cbn in G. rewrite Hi in G. specialize (G ltac:(lia)).
    set (opening := [PlayBall (code (teams w (away_team (engine w))))
                       (code (teams w (home_team (engine w))));
                     PitchingMatchup (Pitcher.name ap) (Pitcher.name hp)]).
    assert (Ho : log (opened w ap hp) = log w ++ opening).
    { cbn. now rewrite <- app_assoc. }
    destruct (game_loop k fuel (opened w ap hp)) as [[] w1|f w1] eqn:E.
    + rewrite (bind_Ok _ _ _ _ _ E).
      destruct G as (n & l & [] & Hb & Hs). rewrite Ho in pr_log0.
      change (inning (engine (opened w ap hp))) with (inning (engine w)) in *.
      rewrite Hi in *.
      destruct (declare_winner_effect w1) as (e & -> & He).
      set (score := FinalScore _ _ _ _). cbn [final engine log set_log].
      assert (Hn : 9 <= n <= 15).
      { destruct Hs as [Hs|(H1 & _)]; [|lia].
        unfold game_goes_on in Hs. apply orb_false_elim in Hs as [Hs _].
        apply Z.leb_gt in Hs. lia. }
      exists (opening ++ l ++ [score] ++ [e]).
      assert (HI : innings_played (opening ++ l ++ [score] ++ [e])
                   = seqZ 1 (inning (engine w1) - 1)).
      { rewrite !innings_played_app, pr_innings0, He.
        change (innings_played opening) with (@nil Z).
        change (innings_played [score]) with (@nil Z).
        cbn [app]. rewrite app_nil_r. f_equal. lia. }
      split; [now rewrite pr_log0, <- !app_assoc|].
      split; [exact HI|]. split; [lia|]. split.
      { rewrite HI. apply Forall_forall. intros x Hx.
        apply elem_of_seqZ in Hx. lia. }
      split.
      { destruct Hs as [Hs|(H1 & H2 & H3)].
        - left. unfold game_goes_on in Hs. apply orb_false_elim in Hs as [_ Hs].
          apply Z.eqb_neq in Hs. congruence.
        - right. unfold game_goes_on in H2. apply orb_true_iff in H2 as [H2|H2].
          + apply Z.leb_le in H2. lia.
          + apply Z.eqb_eq in H2. repeat split; [lia|congruence|].
            rewrite !elem_of_app. right. now left. }
      exists (code (teams w1 (away_team (engine w1)))),
             (code (teams w1 (home_team (engine w1)))).
      rewrite !elem_of_app. right. right. left.
      apply list_elem_of_singleton. reflexivity.
    + rewrite (bind_Fail _ _ _ _ _ E).
      destruct G as (Hf & n & l & [] & Hb). rewrite Ho in pr_log0.
      change (inning (engine (opened w ap hp))) with (inning (engine w)) in *.
      rewrite Hi in *. cbn [final].
      split; [exact Hf|]. exists (opening ++ l). split.
      { now rewrite pr_log0, <- !app_assoc. }
      split; [|lia].
      rewrite innings_played_app, pr_innings0.
      change (innings_played opening) with (@nil Z). cbn [app]. f_equal. lia.
  - intros k' w0. rewrite game_loop_unfold.
    destruct (game_goes_on (engine w0)); [|reflexivity]. cbn.
    destruct (Z.gtb_spec (inning (engine w0)) 15),
             (Z.leb_spec (inning (engine w0)) 15); try lia; reflexivity.
  - intros e. unfold game_goes_on. rewrite orb_true_iff, Z.leb_le, Z.eqb_eq.
    reflexivity.
Qed.

Lemma game_ends_by_inning_15_witness :
  match play 16 4 (Sample.world 9 Sample.all_outs) with
  | Ok _ w' =>
      exists l,
        log w' = log (Sample.world 9 Sample.all_outs) ++ l
        /\ innings_played l = seqZ 1 (inning (engine w') - 1)
        /\ 10 <= inning (engine w') <= 16
        /\ Forall (fun n => 1 <= n <= 15) (innings_played l)
        /\ (home_score (engine w') <> away_score (engine w')
            \/ (inning (engine w') = 16
                /\ home_score (engine w') = away_score (engine w')
                /\ GameCalled ∈ l))
        /\ final_score_reported l w'
  | Fail f w' =>
      f <> OutOfFuel GameLoop
      /\ exists l,
           log w' = log (Sample.world 9 Sample.all_outs) ++ l
           /\ innings_played l = seqZ 1 (inning (engine w'))
           /\ 1 <= inning (engine w') <= 15
  end
  /\ (forall k' w0,
        game_loop (S k') 4 w0
        = if game_goes_on (engine w0) && (inning (engine w0) <=? 15)
          then (play_inning 4;; end_of_inning;; game_loop k' 4) w0
          else if game_goes_on (engine w0) then print GameCalled w0
               else Ok tt w0)
  /\ (forall e, game_goes_on e = true
                <-> inning e <= 9 \/ away_score e = home_score e).
Proof.
  apply (game_ends_by_inning_15 16 4 (Sample.world 9 Sample.all_outs)
           (Sample.pitcher "Away" 75) (Sample.pitcher "Home" 78)).
  - reflexivity.
  - reflexivity.
  - reflexivity.
  - lia.
Defined.

(** A game in which every at-bat is an out: tied at 0 to 0 throughout, it
    goes through fifteen innings, is called, and [play] returns. *)
Example tied_game_is_called :
  let r := play 16 4 (Sample.world 9 Sample.all_outs) in
  failure_of r = None
  /\ inning (engine (final r)) = 16
  /\ home_score (engine (final r)) = 0 /\ away_score (engine (final r)) = 0
  /\ innings_played (log (final r)) = seqZ 1 15
  /\ last (log (final r)) = Some Tie
  /\ existsb (fun e => match e with GameCalled => true | _ => false end)
       (log (final r)) = true.
Proof. vm_compute. repeat split. Qed.

(** ** Fatigue *)

Lemma bottom_of_inning_unfold (fuel : nat) (w : World) :
  bottom_of_inning fuel w
  = (print (BottomOf (inning (engine w)));;
     play_half_inning fuel (home_team (engine w)) (away_team (engine w))
       (away_pitcher (engine w)) (away_pitcher_fatigue (engine w)) true;;
     print_score) w.
Proof. reflexivity. Qed.



(** ** Walk-off *)

Lemma half_inning_loop_unfold (fuel : nat) (bt dt : TeamRef)
    (lineup : list Batter.t) (pitcher : option Pitcher.t) (fatigue : Q)
    (is_home : bool) (outs : Z) (bases : list Z) (w : World) :
  half_inning_loop (S fuel) bt dt lineup pitcher fatigue is_home outs bases w
  = if outs <? 3 then
      if walk_off (engine w) is_home then Ok tt w
      else (plate_appearance bt dt lineup pitcher fatigue is_home outs bases
            ≫= fun '(outs, bases) =>
                 half_inning_loop fuel bt dt lineup pitcher fatigue is_home
                   outs bases) w
    else Ok tt w.
Proof.
  cbn. destruct (outs <? 3); [|reflexivity]. munfold.
  destruct (walk_off (engine w) is_home); reflexivity.
Qed.

Lemma walk_off_true (e : Engine) :
  9 <= inning e -> home_score e > away_score e -> walk_off e true = true.
Proof.
  intros H1 H2. unfold walk_off.
  destruct (Z.geb_spec (inning e) 9), (Z.gtb_spec (home_score e) (away_score e));
    try lia; reflexivity.
Qed.

Lemma walk_off_false (e : Engine) (is_home : bool) :
  home_score e <= away_score e -> walk_off e is_home = false.
Proof.
  intros H. unfold walk_off.
  destruct (Z.gtb_spec (home_score e) (away_score e)); [lia|].
  now rewrite andb_false_r.
Qed.

(** C6. In an inning numbered 9 or more: when the home team leads after
    the top half, the inning is over with the top half, nothing of the
    bottom half taking place; when it does not lead (it trails or the
    score is tied), the bottom half is played.  In the bottom half, while
    the home team leads the loop of the half-inning returns at once,
    whatever the outs and the bases, without a plate appearance; so a
    plate appearance that gives the home team the lead is the last one of
    the half-inning.  With a tied score and fewer than three outs the next
    plate appearance takes place. *)
Theorem home_never_bats_in_the_lead (fuel : nat) (w : World) :
  9 <= inning (engine w) ->
  (forall w1,
      top_of_inning fuel w = Ok tt w1 ->
      home_score (engine w1) > away_score (engine w1) ->
      play_inning fuel w = Ok tt w1)
  /\ (forall w1,
        top_of_inning fuel w = Ok tt w1 ->
        home_score (engine w1) <= away_score (engine w1) ->
        play_inning fuel w = bottom_of_inning fuel w1)
  /\ (forall bt dt lineup pitcher fatigue outs bases,
        home_score (engine w) > away_score (engine w) ->
        half_inning_loop (S fuel) bt dt lineup pitcher fatigue true outs bases w
        = Ok tt w)
  /\ (forall bt dt lineup pitcher fatigue outs bases outs' bases' w1,
        outs < 3 ->
        home_score (engine w) <= away_score (engine w) ->
        plate_appearance bt dt lineup pitcher fatigue true outs bases w
        = Ok (outs', bases') w1 ->
        home_score (engine w1) > away_score (engine w1) ->
        half_inning_loop (S (S fuel)) bt dt lineup pitcher fatigue true
          outs bases w
        = Ok tt w1)
  /\ (forall bt dt lineup pitcher fatigue outs bases,
        outs < 3 ->
        home_score (engine w) = away_score (engine w) ->
        half_inning_loop (S fuel) bt dt lineup pitcher fatigue true outs bases w
        = (plate_appearance bt dt lineup pitcher fatigue true outs bases
           ≫= fun '(outs, bases) =>
                half_inning_loop fuel bt dt lineup pitcher fatigue true
                  outs bases) w).
Proof.
  intros Hi. split; [|split; [|split; [|split]]].
  - intros w1 E Hs. destruct (top_of_inning_grows fuel w) as [[] _].
    rewrite E in *. cbn in *.
    unfold play_inning. rewrite (bind_Ok _ _ _ _ _ E). munfold. cbn.
    destruct (Z.geb_spec (inning (engine w1)) 9),
             (Z.gtb_spec (home_score (engine w1)) (away_score (engine w1)));
      try lia. reflexivity.
  - intros w1 E Hs.
    unfold play_inning. rewrite (bind_Ok _ _ _ _ _ E). munfold. cbn.
    destruct (Z.gtb_spec (home_score (engine w1)) (away_score (engine w1)));
      [lia|]. now rewrite andb_false_r.
  - intros bt dt lineup pitcher fatigue outs bases Hs.
    rewrite half_inning_loop_unfold, walk_off_true by assumption.
    now destruct (outs <? 3).
  - intros bt dt lineup pitcher fatigue outs bases outs' bases' w1 Ho Hs E Hs1.
    rewrite half_inning_loop_unfold, walk_off_false by assumption.
    destruct (Z.ltb_spec outs 3); [|lia].
    rewrite (bind_Ok _ _ _ _ _ E).
    destruct (preserves_plate_appearance bt dt lineup pitcher fatigue true
                outs bases w) as [[] _].
    rewrite E in *. cbn [final] in *. cbv beta iota.
    rewrite half_inning_loop_unfold, walk_off_true by lia.
    now destruct (outs' <? 3).
  - intros bt dt lineup pitcher fatigue outs bases Ho Hs.
    rewrite half_inning_loop_unfold, walk_off_false by lia.
    destruct (Z.ltb_spec outs 3); [reflexivity|lia].
Qed.

(** The ninth inning with the home team ahead 1 to 0, every at-bat an
    out: the inning is over after the three outs of the top half. *)
Lemma home_never_bats_in_the_lead_witness :
  9 <= inning (engine (Sample.ninth_inning 0 1))
  /\ let r := play_inning 4 (Sample.ninth_inning 0 1) in
     failure_of r = None
     /\ draw_pos (final r) = 3%nat
     /\ log (final r) = [TopOf 9].
Proof.
  split; [vm_compute; discriminate|].
  destruct (home_never_bats_in_the_lead 4 (Sample.ninth_inning 0 1)) as (H & _).
  { vm_compute. discriminate. }
  pose proof (eq_refl : failure_of (top_of_inning 4 (Sample.ninth_inning 0 1))
                        = None) as F.
  pose proof (eq_refl : (home_score (engine (final (top_of_inning 4
                           (Sample.ninth_inning 0 1)))) ?= 0) = Gt) as L.
  pose proof (eq_refl : draw_pos (final (top_of_inning 4
                          (Sample.ninth_inning 0 1))) = 3%nat) as D.
  pose proof (eq_refl : log (final (top_of_inning 4
                          (Sample.ninth_inning 0 1))) = [TopOf 9]) as G.
  pose proof (eq_refl : away_score (engine (final (top_of_inning 4
                          (Sample.ninth_inning 0 1)))) = 0) as A.
  specialize (H (final (top_of_inning 4 (Sample.ninth_inning 0 1)))).
  destruct (top_of_inning 4 (Sample.ninth_inning 0 1)) as [[] w1|f w1];
    [|discriminate].
  cbn [final] in *. cbv zeta.
  rewrite (H eq_refl); [now repeat split|].
  rewrite A. exact L.
Defined.

(** ** Rosters, scores and the batting order through a game *)

Lemma same_roster_refl (t : Team) : same_roster t t.
Proof. now repeat split. Qed.

Lemma same_roster_trans (t1 t2 t3 : Team) :
  same_roster t1 t2 -> same_roster t2 t3 -> same_roster t1 t3.
Proof. intros (? & ? & ? & ?) (? & ? & ? & ?). repeat split; congruence. Qed.

Lemma tame_refl (h : bool) (w : World) : tame h w w.
Proof.
  constructor; intros; try apply same_roster_refl; try assumption;
    try reflexivity; lia.
Qed.

Lemma tame_trans (h : bool) (w1 w2 w3 : World) :
  tame h w1 w2 -> tame h w2 w3 -> tame h w1 w3.
Proof.
  intros [] []. constructor; intros; auto; try lia; try congruence.
  eapply same_roster_trans; eauto.
Qed.

Lemma steady_refl (w : World) : steady w w.
Proof.
  constructor; intros; try apply same_roster_refl; try assumption; lia.
Qed.

Lemma steady_trans (w1 w2 w3 : World) :
  steady w1 w2 -> steady w2 w3 -> steady w1 w3.
Proof.
  intros [] []. constructor; intros; auto; try lia.
  eapply same_roster_trans; eauto.
Qed.

Lemma tame_steady (h : bool) (w w' : World) : tame h w w' -> steady w w'.
Proof.
  intros []. constructor; auto; destruct h; cbn in *; lia.
Qed.

(** A step that touches neither the teams nor the scores. *)
Lemma tame_same (h : bool) (w w' : World) :
  teams w' = teams w ->
  home_score (engine w') = home_score (engine w) ->
  away_score (engine w') = away_score (engine w) ->
  tame h w w'.
Proof.
  intros Ht Hh Ha.
  constructor; intros; rewrite ?Ht; try apply same_roster_refl; try assumption;
    destruct h; cbn; lia.
Qed.

Lemma simulate_at_bat_same (batter : Batter.t) (pitcher : option Pitcher.t)
    (defense_rating fatigue : Q) (w : World) :
  let r := simulate_at_bat batter pitcher defense_rating fatigue w in
  teams (final r) = teams w /\ engine (final r) = engine w
  /\ (pitcher <> None -> failure_of r = None)
  /\ (pitcher = None -> r = Fail AttributeError w).
Proof.
  unfold simulate_at_bat. munfold.
  destruct pitcher as [p|]; cbn; [|repeat split; congruence].
  repeat match goal with
         | |- context [if ?b then _ else _] => destruct b; cbn
         end; repeat split; congruence.
Qed.

Lemma apply_result_tame (result : Outcome) (f s t is_home : bool)
    (batter : Batter.t) (outs : Z) (w : World) :
  match apply_result batter result is_home outs (bases_of f s t) w with
  | Ok a w' =>
      a = (outs_after result outs, (spec_play result f s t).1)
      /\ tame is_home w w' /\ teams w' = teams w
  | Fail _ _ => False
  end.
Proof.
  destruct w as [[] ].
  destruct result, f, s, t, is_home;
    match goal with
    | |- match ?r with _ => _ end =>
        let t := eval cbv -[add_runs] in r in change r with t
    end;
    unfold add_runs, modify_self, modify; simpl;
    (split; [cbv; reflexivity|]); (split; [|reflexivity]);
    (constructor; cbn; intros; try apply same_roster_refl; try assumption; lia).
Qed.

Lemma py_getitem_cases {A : Type} (l : list A) (i : Z) (w : World) :
  (exists x, py_getitem l i w = Ok x w) \/ py_getitem l i w = Fail IndexError w.
Proof.
  unfold py_getitem. destruct (py_index l i) as [k|]; [|now right].
  destruct (l !! k) as [x|]; [left; now exists x|now right].
Qed.

Lemma py_getitem_Z {A : Type} (l : list A) (i : Z) (x : A) (w : World) :
  0 <= i -> l !! Z.to_nat i = Some x -> py_getitem l i w = Ok x w.
Proof.
  intros Hi H. rewrite <- (Z2Nat.id i Hi). now apply py_getitem_nat.
Qed.

Lemma tame_update_index (h : bool) (r : TeamRef) (v : Z) (w : World) :
  0 <= v < 9 ->
  tame h w (final (update_team r (fun t => set_current_batter_index t v) w)).
Proof.
  intros Hv.
  assert (Hok : index_ok (set_current_batter_index (teams w r) v)).
  { exists v. now split. }
  constructor; cbn; try lia.
  - intros r'. destruct (Nat.eqb r' r); [now repeat split|apply same_roster_refl].
  - intros r' H. destruct (Nat.eqb_spec r' r) as [->|]; [exact Hok|exact H].
  - intros r' H. destruct (Nat.eqb_spec r' r) as [->|]; [now right|exact H].
  - destruct h; cbn; lia.
  - destruct h; reflexivity.
Qed.

Lemma plate_appearance_tame (bt dt : TeamRef) (lineup : list Batter.t)
    (pitcher : option Pitcher.t) (fatigue : Q) (is_home : bool) (outs : Z)
    (bases : list Z) (w : World) :
  binary bases ->
  let r := plate_appearance bt dt lineup pitcher fatigue is_home outs bases w in
  tame is_home w (final r)
  /\ match r with
     | Ok (outs', bases') w' =>
         binary bases' /\ outs <= outs' <= outs + 1
         /\ index_ok (teams w' bt)
     | Fail f _ => f = IndexError \/ f = AttributeError
     end
  /\ (pitcher <> None ->
      (exists i x, current_batter_index (teams w bt) = Some i
                   /\ 0 <= i /\ lineup !! Z.to_nat i = Some x) ->
      failure_of r = None).
Proof.
  intros (f & s & t & ->). unfold plate_appearance.
  rewrite (bind_Ok (team_of bt) _ w w (teams w bt) eq_refl).
  destruct (current_batter_index (teams w bt)) as [i|] eqn:Ei; cycle 1.
  { cbn. split; [apply tame_refl|]. split; [now right|].
    intros _ (i & x & H & _). discriminate. }
  rewrite (bind_Ok (deref (Some i)) _ w w i eq_refl).
  destruct (py_getitem_cases lineup i w) as [(batter & Eg)|Eg]; cycle 1.
  { rewrite (bind_Fail _ _ _ _ _ Eg). cbn. split; [apply tame_refl|].
    split; [now left|].
    intros _ (i' & x & H & Hi & Hx). injection H as <-.
    rewrite (py_getitem_Z lineup i x w Hi Hx) in Eg. discriminate. }
  rewrite (bind_Ok _ _ _ _ _ Eg).
  rewrite (bind_Ok (team_of dt) _ w w (teams w dt) eq_refl).
  pose proof (simulate_at_bat_same batter pitcher (defense (teams w dt)) fatigue w)
    as (St & Se & Sok & Sno). cbv zeta in *.
  destruct (simulate_at_bat batter pitcher (defense (teams w dt)) fatigue w)
    as [result w1|e w1] eqn:Es; cbn [final failure_of] in *; cycle 1.
  { rewrite (bind_Fail _ _ _ _ _ Es). cbn.
    split; [apply tame_same; congruence|].
    destruct pitcher as [p|].
    - specialize (Sok ltac:(discriminate)). discriminate.
    - specialize (Sno eq_refl). injection Sno as -> ->.
      split; [now right|]. intros H. now contradiction H. }
  rewrite (bind_Ok _ _ _ _ _ Es).
  pose proof (apply_result_tame result f s t is_home batter outs w1) as Ha.
  destruct (apply_result batter result is_home outs (bases_of f s t) w1)
    as [[outs' bases'] w2|] eqn:Ea; [|contradiction].
  destruct Ha as (Hab & Ht & Hteams). injection Hab as -> ->.
  rewrite (bind_Ok _ _ _ _ _ Ea). cbv beta iota.
  rewrite (bind_Ok (team_of bt) _ w2 w2 (teams w2 bt) eq_refl).
  rewrite Hteams, St, Ei.
  rewrite (bind_Ok (deref (Some i)) _ w2 w2 i eq_refl).
  pose proof (tame_update_index is_home bt ((i + 1) `mod` 9) w2
                ltac:(apply Z.mod_pos_bound; lia)) as Hu.
  set (u := update_team bt _) in *.
  assert (Eu : exists w3, u w2 = Ok tt w3 /\ index_ok (teams w3 bt)).
  { eexists. split; [reflexivity|]. cbn. rewrite Nat.eqb_refl.
    exists ((i + 1) `mod` 9). split; [reflexivity|].
    apply Z.mod_pos_bound. lia. }
  destruct Eu as (w3 & Eu & Hi3). rewrite Eu in Hu. cbn [final] in Hu.
  rewrite (bind_Ok _ _ _ _ _ Eu). cbn.
  split; [|split].
  - eapply tame_trans; [|exact Hu]. eapply tame_trans; [|exact Ht].
    apply tame_same; congruence.
  - split; [apply spec_play_binary|]. split; [|exact Hi3].
    destruct result; cbn; lia.
  - reflexivity.
Qed.

Lemma half_inning_loop_tame (fuel : nat) (bt dt : TeamRef)
    (lineup : list Batter.t) (pitcher : option Pitcher.t) (fatigue : Q)
    (is_home : bool) (outs : Z) (bases : list Z) (w : World) :
  binary bases ->
  let r := half_inning_loop fuel bt dt lineup pitcher fatigue is_home outs
             bases w in
  tame is_home w (final r)
  /\ (pitcher <> None -> length lineup = 9%nat -> index_ok (teams w bt) ->
      only_fuel r).
Proof.
  revert outs bases w. induction fuel as [|fuel IH]; intros outs bases w Hb.
  { cbn. split; [apply tame_refl|tauto]. }
  cbv zeta. rewrite half_inning_loop_unfold.
  destruct (outs <? 3); [|cbn; split; [apply tame_refl|tauto]].
  destruct (walk_off (engine w) is_home); [cbn; split; [apply tame_refl|tauto]|].
  pose proof (plate_appearance_tame bt dt lineup pitcher fatigue is_home outs
                bases w Hb) as (Ht & Hr & Hs). cbv zeta in *.
  destruct (plate_appearance bt dt lineup pitcher fatigue is_home outs bases w)
    as [[outs' bases'] w1|f w1] eqn:E; cbn [final failure_of] in *.
  - rewrite (bind_Ok _ _ _ _ _ E). cbv beta iota.
    destruct Hr as (Hb' & _ & Hi').
    destruct (IH outs' bases' w1 Hb') as (Ht' & Hs').
    split; [eapply tame_trans; eassumption|].
    intros Hp Hl _. now apply Hs'.
  - rewrite (bind_Fail _ _ _ _ _ E). cbn. split; [exact Ht|].
    intros Hp Hl (i & Hi & Hrange).
    destruct (lookup_lt_is_Some_2 lineup (Z.to_nat i)) as [x Hx]; [lia|].
    specialize (Hs Hp ltac:(exists i, x; repeat split; [assumption|lia|assumption])).
    discriminate.
Qed.

Lemma get_starting_lineup_length (t : Team) :
  length (get_starting_lineup t) = Nat.min 9 (length (batters t)).
Proof.
  unfold get_starting_lineup.
  destruct (Z.ltb_spec (Z.of_nat (length (batters t))) 9); [lia|].
  rewrite length_take.
  now rewrite (Permutation_length (sorted_desc_perm Batter.overall (batters t))).
Qed.

Lemma play_half_inning_tame (fuel : nat) (bt dt : TeamRef)
    (pitcher : option Pitcher.t) (fatigue : Q) (is_home : bool) (w : World) :
  let r := play_half_inning fuel bt dt pitcher fatigue is_home w in
  tame is_home w (final r)
  /\ (index_fine (teams w bt) -> index_ok (teams (final r) bt))
  /\ (pitcher <> None -> can_bat (teams w bt) -> only_fuel r).
Proof.
  unfold play_half_inning.
  rewrite (bind_Ok (team_of bt) _ w w (teams w bt) eq_refl).
  set (lineup := get_starting_lineup (teams w bt)).
  set (init := match current_batter_index (teams w bt) with
               | Some _ => mret ()
               | None => update_team bt (fun t => set_current_batter_index t 0)
               end).
  assert (Hinit : exists w0,
             init w = Ok tt w0 /\ tame is_home w w0
             /\ (index_fine (teams w bt) -> index_ok (teams w0 bt))
             /\ batters (teams w0 bt) = batters (teams w bt)).
  { subst init. destruct (current_batter_index (teams w bt)) as [i|] eqn:Ei.
    - exists w. split; [reflexivity|]. split; [apply tame_refl|]. split; [|reflexivity].
      intros [H|H]; [congruence|exact H].
    - pose proof (tame_update_index is_home bt 0 w ltac:(lia)) as Hu.
      eexists. split; [reflexivity|]. split; [exact Hu|]. split.
      + intros _. cbn. rewrite Nat.eqb_refl. exists 0. split; [reflexivity|lia].
      + cbn. now rewrite Nat.eqb_refl. }
  destruct Hinit as (w0 & Ei & Ht0 & Hi0 & Hb0).
  rewrite (bind_Ok _ _ _ _ _ Ei).
  destruct (half_inning_loop_tame fuel bt dt lineup pitcher fatigue is_home 0
              [0; 0; 0] w0) as (Ht & Hs).
  { now exists false, false, false. }
  cbv zeta in *. split; [eapply tame_trans; eassumption|]. split.
  - intros Hf. apply (tm_index_ok _ _ _ Ht). now apply Hi0.
  - intros Hp (Hn & Hf). apply Hs; [assumption| |now apply Hi0].
    subst lineup. rewrite get_starting_lineup_length. lia.
Qed.

Lemma steady_same (w w' : World) :
  teams w' = teams w ->
  home_score (engine w') = home_score (engine w) ->
  away_score (engine w') = away_score (engine w) ->
  steady w w'.
Proof. intros. apply (tame_steady true). now apply tame_same. Qed.

Lemma ready_preserved (w w' : World) :
  ready w -> steady w w' ->
  home_team (engine w') = home_team (engine w) ->
  away_team (engine w') = away_team (engine w) ->
  home_pitcher (engine w') = home_pitcher (engine w) ->
  away_pitcher (engine w') = away_pitcher (engine w) ->
  ready w'.
Proof.
  intros (Hp & Ap & (Hn & Hf) & (An & Af)) [] Hh Ha Hhp Hap.
  unfold ready, can_bat. rewrite Hh, Ha, Hhp, Hap.
  destruct (st_roster0 (home_team (engine w))) as (_ & Hb & _).
  destruct (st_roster0 (away_team (engine w))) as (_ & Ab & _).
  rewrite Hb, Ab. repeat split; auto.
Qed.

Lemma top_of_inning_tame (fuel : nat) (w : World) :
  tame false w (final (top_of_inning fuel w))
  /\ (ready w -> only_fuel (top_of_inning fuel w)).
Proof.
  rewrite top_of_inning_unfold.
  destruct (play_half_inning_tame fuel (away_team (engine w))
              (home_team (engine w)) (home_pitcher (engine w))
              (home_pitcher_fatigue (engine w)) false (announced w))
    as (Ht & _ & Hs). cbv zeta in *.
  split.
  - eapply tame_trans; [|exact Ht]. now apply tame_same.
  - intros (Hp & _ & _ & Hc). now apply Hs.
Qed.

Lemma print_score_unfold (w : World) :
  print_score w
  = Ok tt (set_log w (log w ++ [Score (code (teams w (away_team (engine w))))
                                 (away_score (engine w))
                                 (code (teams w (home_team (engine w))))
                                 (home_score (engine w))])).
Proof. reflexivity. Qed.

Lemma bottom_of_inning_tame (fuel : nat) (w : World) :
  tame true w (final (bottom_of_inning fuel w))
  /\ (ready w -> only_fuel (bottom_of_inning fuel w)).
Proof.
  rewrite bottom_of_inning_unfold.
  set (w0 := set_log w (log w ++ [BottomOf (inning (engine w))])).
  rewrite (bind_Ok (print (BottomOf (inning (engine w)))) _ w w0 tt eq_refl).
  destruct (play_half_inning_tame fuel (home_team (engine w))
              (away_team (engine w)) (away_pitcher (engine w))
              (away_pitcher_fatigue (engine w)) true w0) as (Ht & _ & Hs).
  cbv zeta in *.
  assert (T0 : tame true w w0) by now apply tame_same.
  destruct (play_half_inning fuel (home_team (engine w)) (away_team (engine w))
              (away_pitcher (engine w)) (away_pitcher_fatigue (engine w)) true w0)
    as [[] w1|f w1] eqn:E; cbn [final] in *.
  - rewrite (bind_Ok _ _ _ _ _ E), print_score_unfold. cbn [final only_fuel].
    split; [|tauto].
    eapply tame_trans; [exact T0|]. eapply tame_trans; [exact Ht|].
    now apply tame_same.
  - rewrite (bind_Fail _ _ _ _ _ E). cbn [final].
    split; [eapply tame_trans; eassumption|].
    intros (_ & Ap & Hc & _). now apply Hs.
Qed.

Lemma play_inning_steady (fuel : nat) (w : World) :
  steady w (final (play_inning fuel w))
  /\ (ready w -> only_fuel (play_inning fuel w)).
Proof.
  destruct (top_of_inning_tame fuel w) as (Ht & Hs).
  destruct (top_of_inning_grows fuel w) as [G _].
  unfold play_inning.
  destruct (top_of_inning fuel w) as [[] w1|f w1] eqn:E; cbn [final] in *.
  - rewrite (bind_Ok _ _ _ _ _ E).
    rewrite (bind_Ok self _ w1 w1 (engine w1) eq_refl).
    destruct ((inning (engine w1) >=? 9)
              && (home_score (engine w1) >? away_score (engine w1))).
    + cbn. split; [now apply (tame_steady false)|tauto].
    + destruct (bottom_of_inning_tame fuel w1) as (Hb & Hbs). split.
      * eapply steady_trans; [apply (tame_steady false); exact Ht|].
        apply (tame_steady true). exact Hb.
      * intros R. apply Hbs.
        apply (ready_preserved w w1 R); [now apply (tame_steady false)|..];
          apply G.
  - rewrite (bind_Fail _ _ _ _ _ E). cbn [final].
    split; [now apply (tame_steady false)|exact Hs].
Qed.

Lemma game_loop_steady (fuel k : nat) (w : World) :
  steady w (final (game_loop k fuel w))
  /\ (ready w -> only_fuel (game_loop k fuel w)).
Proof.
  revert w. induction k as [|k IH]; intros w.
  { cbn. split; [apply steady_refl|tauto]. }
  rewrite game_loop_unfold.
  destruct (game_goes_on (engine w)); [|cbn; split; [apply steady_refl|tauto]].
  destruct (inning (engine w) >? 15).
  { cbn. split; [now apply steady_same|tauto]. }
  destruct (play_inning_steady fuel w) as (Hi & His).
  destruct (play_inning_grows fuel w) as [G _].
  destruct (play_inning fuel w) as [[] w1|f w1] eqn:E; cbn [final] in *.
  - rewrite (bind_Ok _ _ _ _ _ E).
    rewrite (bind_Ok _ _ _ _ _ (end_of_inning_unfold w1)).
    set (w2 := set_engine w1 _).
    destruct (IH w2) as (H2 & H2s).
    assert (S12 : steady w1 w2) by now apply steady_same.
    split; [eapply steady_trans; [exact Hi|eapply steady_trans; eassumption]|].
    intros R. apply H2s.
    apply (ready_preserved w1 w2); try reflexivity; [|exact S12].
    apply (ready_preserved w w1 R Hi); apply G.
  - rewrite (bind_Fail _ _ _ _ _ E). cbn [final]. split; assumption.
Qed.

Lemma declare_winner_verdict (w : World) :
  declare_winner w
  = Ok tt (set_log w
             ((log w ++ [FinalScore (code (teams w (away_team (engine w))))
                           (away_score (engine w))
                           (code (teams w (home_team (engine w))))
                           (home_score (engine w))]) ++ [verdict w])).
Proof.
  unfold declare_winner, verdict. munfold. cbn.
  destruct (home_score (engine w) >? away_score (engine w));
    [|destruct (away_score (engine w) >? home_score (engine w))]; reflexivity.
Qed.

Lemma play_steady (k fuel : nat) (w : World) :
  steady w (final (play k fuel w))
  /\ (ready w -> only_fuel (play k fuel w)).
Proof.
  destruct (away_pitcher (engine w)) as [ap|] eqn:Ea; cycle 1.
  { rewrite (play_without_pitcher k fuel w) by tauto. cbn.
    split; [now apply steady_same|]. intros (_ & H & _). congruence. }
  destruct (home_pitcher (engine w)) as [hp|] eqn:Eh; cycle 1.
  { rewrite (play_without_pitcher k fuel w) by tauto. cbn.
    split; [now apply steady_same|]. intros (H & _). congruence. }
  rewrite (play_unfold k fuel w ap hp Ea Eh).
  destruct (game_loop_steady fuel k (opened w ap hp)) as (Hg & Hs).
  assert (S0 : steady w (opened w ap hp)) by now apply steady_same.
  destruct (game_loop k fuel (opened w ap hp)) as [[] w1|f w1] eqn:E;
    cbn [final] in *.
  - rewrite (bind_Ok _ _ _ _ _ E), declare_winner_verdict. cbn [final].
    split; [|tauto].
    eapply steady_trans; [exact S0|]. eapply steady_trans; [exact Hg|].
    now apply steady_same.
  - rewrite (bind_Fail _ _ _ _ _ E). cbn [final].
    split; [eapply steady_trans; eassumption|].
    intros R. apply Hs. apply (ready_preserved w _ R S0); reflexivity.
Qed.

Lemma full_rosters_never_raise_aux (k fuel : nat) (w : World) :
  ready w ->
  forall f, failure_of (play k fuel w) = Some f -> exists l, f = OutOfFuel l.
Proof.
  intros R f Hf. destruct (play_steady k fuel w) as (_ & Hs).
  specialize (Hs R). destruct (play k fuel w) as [|f' w']; [discriminate|].
  injection Hf as ->. destruct f; try contradiction. eauto.
Qed.

(** X1. When both pitchers are present and both teams have at least nine
    batters (and a batter index that is absent or between 0 and 8), a game
    never raises [IndexError] or [AttributeError]: whatever the draws,
    [play] returns, or a loop of the model runs out of fuel. *)
Theorem full_rosters_never_raise (k fuel : nat) (w : World) :
  ready w ->
  forall f, failure_of (play k fuel w) = Some f -> exists l, f = OutOfFuel l.
Proof.
  intros R f Hf. destruct (play_steady k fuel w) as (_ & Hs).
  specialize (Hs R). unfold only_fuel in Hs.
  destruct (play k fuel w) as [|f' w']; [discriminate|].
  injection Hf as ->. destruct f as [| |l]; [contradiction..|].
  now exists l.
Qed.

Lemma full_rosters_never_raise_witness :
  ready (Sample.world 9 Sample.power_swing)
  /\ forall f,
       failure_of (play 16 4 (Sample.world 9 Sample.power_swing)) = Some f ->
       exists l, f = OutOfFuel l.
Proof.
  assert (R : ready (Sample.world 9 Sample.power_swing)).
  { repeat split; try discriminate; cbn; try lia; now left. }
  split; [exact R|].
  exact (full_rosters_never_raise 16 4 (Sample.world 9 Sample.power_swing) R).
Defined.

(** X2. Through a game, however it ends, neither score ever goes down and
    no team's code, batters, pitchers or defense rating changes. *)
Theorem scores_and_rosters_through_a_game (k fuel : nat) (w : World) :
  let w' := final (play k fuel w) in
  home_score (engine w) <= home_score (engine w')
  /\ away_score (engine w) <= away_score (engine w')
  /\ forall r, code (teams w' r) = code (teams w r)
               /\ batters (teams w' r) = batters (teams w r)
               /\ pitchers (teams w' r) = pitchers (teams w r)
               /\ defense (teams w' r) = defense (teams w r).
Proof.
  destruct (play_steady k fuel w) as ([] & _). cbv zeta.
  repeat split; try assumption; apply (st_roster0 r).
Qed.

(** X3. In a half-inning, however it ends, only the side at bat can score:
    the score of the side in the field is the same afterwards, and the
    score of the side at bat is not smaller. *)
Theorem only_the_batting_side_scores (fuel : nat) (bt dt : TeamRef)
    (pitcher : option Pitcher.t) (fatigue : Q) (is_home : bool) (w : World) :
  let w' := final (play_half_inning fuel bt dt pitcher fatigue is_home w) in
  batting_score (negb is_home) w' = batting_score (negb is_home) w
  /\ batting_score is_home w <= batting_score is_home w'.
Proof.
  destruct (play_half_inning_tame fuel bt dt pitcher fatigue is_home w)
    as ([] & _). cbv zeta. now split.
Qed.

(** X4. The batter index stays in the batting order: a team whose index
    is absent or between 0 and 8 before a half-inning has an index between
    0 and 8 after batting in it, however the half-inning ends, and through
    a whole game no team's index leaves that range. *)
Theorem batter_index_stays_in_order (k fuel : nat) (bt dt : TeamRef)
    (pitcher : option Pitcher.t) (fatigue : Q) (is_home : bool) (w : World) :
  (index_fine (teams w bt) ->
   index_ok (teams (final (play_half_inning fuel bt dt pitcher fatigue
                             is_home w)) bt))
  /\ (forall r, index_fine (teams w r) ->
                index_fine (teams (final (play k fuel w)) r))
  /\ (forall r, index_ok (teams w r) ->
                index_ok (teams (final (play k fuel w)) r)).
Proof.
  destruct (play_half_inning_tame fuel bt dt pitcher fatigue is_home w)
    as (_ & Hi & _).
  destruct (play_steady k fuel w) as ([] & _).
  split; [exact Hi|]. split; assumption.
Qed.

(** X5. When a game that started in inning 1 comes to its end, the last
    line printed names the winner: the home team when it has more runs,
    the away team when it has more runs, and a tie when the scores are
    equal.  A tie is declared only for a game that went through fifteen
    innings and was called. *)
Theorem tie_only_when_called (k fuel : nat) (w : World) (ap hp : Pitcher.t) :
  inning (engine w) = 1 ->
  away_pitcher (engine w) = Some ap ->
  home_pitcher (engine w) = Some hp ->
  (16 <= k)%nat ->
  failure_of (play k fuel w) = None ->
  let w' := final (play k fuel w) in
  (home_score (engine w') > away_score (engine w') ->
   last (log w') = Some (Wins (code (teams w' (home_team (engine w'))))))
  /\ (away_score (engine w') > home_score (engine w') ->
      last (log w') = Some (Wins (code (teams w' (away_team (engine w'))))))
  /\ (home_score (engine w') = away_score (engine w') ->
      last (log w') = Some Tie)
  /\ (last (log w') = Some Tie ->
      home_score (engine w') = away_score (engine w')
      /\ inning (engine w') = 16
      /\ GameCalled ∈ log w').
Proof.
  intros Hi Ha Hh Hk Hok.
  rewrite (play_unfold k fuel w ap hp Ha Hh) in *.
  pose proof (game_loop_spec fuel k (opened w ap hp)) as G.
  cbn in G. rewrite Hi in G. specialize (G ltac:(lia)).
  destruct (game_loop k fuel (opened w ap hp)) as [[] w1|f w1] eqn:E;
    [|rewrite (bind_Fail _ _ _ _ _ E) in Hok; discriminate].
  rewrite (bind_Ok _ _ _ _ _ E), declare_winner_verdict in *. cbn [final].
  set (score := FinalScore _ _ _ _).
  cbn [engine teams log set_log]. rewrite last_snoc.
  destruct G as (n & l & [] & Hb & Hs).
  change (inning (engine (opened w ap hp))) with (inning (engine w)) in *.
  rewrite Hi in *.
  assert (V : verdict w1 = Tie ->
              home_score (engine w1) = away_score (engine w1)).
  { unfold verdict.
    destruct (Z.gtb_spec (home_score (engine w1)) (away_score (engine w1)));
      [discriminate|].
    destruct (Z.gtb_spec (away_score (engine w1)) (home_score (engine w1)));
      [discriminate|]. lia. }
  unfold verdict at 1 2 3.
  split; [|split; [|split]].
  - intros H.
    destruct (Z.gtb_spec (home_score (engine w1)) (away_score (engine w1)));
      [reflexivity|lia].
  - intros H.
    destruct (Z.gtb_spec (home_score (engine w1)) (away_score (engine w1)));
      [lia|].
    destruct (Z.gtb_spec (away_score (engine w1)) (home_score (engine w1)));
      [reflexivity|lia].
  - intros H.
    destruct (Z.gtb_spec (home_score (engine w1)) (away_score (engine w1)));
      [lia|].
    destruct (Z.gtb_spec (away_score (engine w1)) (home_score (engine w1)));
      [lia|reflexivity].
  - intros [= Hv]. apply V in Hv. split; [exact Hv|].
    destruct Hs as [Hs|(H1 & _ & H3)].
    + unfold game_goes_on in Hs. apply orb_false_elim in Hs as [_ Hs].
      apply Z.eqb_neq in Hs. congruence.
    + split; [lia|].
      rewrite pr_log0, !elem_of_app. left. left. now right.
Qed.

Lemma tie_only_when_called_witness :
  let w' := final (play 16 4 (Sample.world 9 Sample.all_outs)) in
  last (log w') = Some Tie
  /\ home_score (engine w') = away_score (engine w')
  /\ inning (engine w') = 16.
Proof.
  destruct (tie_only_when_called 16 4 (Sample.world 9 Sample.all_outs)
              (Sample.pitcher "Away" 75) (Sample.pitcher "Home" 78))
    as (_ & _ & H3 & H4).
  - reflexivity.
  - reflexivity.
  - reflexivity.
  - lia.
  - vm_compute. reflexivity.
  - cbv zeta in *.
    assert (E : home_score (engine (final (play 16 4
                  (Sample.world 9 Sample.all_outs))))
                = away_score (engine (final (play 16 4
                    (Sample.world 9 Sample.all_outs)))))
      by (vm_compute; reflexivity).
    specialize (H3 E). destruct (H4 H3) as (H5 & H6 & _). now repeat split.
Defined.

(** X6. The game ends as soon as an inning from the ninth on is completed
    with unequal scores: the game loop then returns right after that
    inning's fatigue and inning-number update, without another inning. *)
Theorem game_stops_once_decided (k fuel : nat) (w : World) :
  game_goes_on (engine w) = true ->
  9 <= inning (engine w) <= 15 ->
  failure_of (play_inning fuel w) = None ->
  home_score (engine (final (play_inning fuel w)))
  <> away_score (engine (final (play_inning fuel w))) ->
  game_loop (S (S k)) fuel w = end_of_inning (final (play_inning fuel w))
  /\ innings_played (log (final (game_loop (S (S k)) fuel w)))
     = innings_played (log w) ++ [inning (engine w)].
Proof.
  intros Hg Hi Hok Hne.
  destruct (play_inning_grows fuel w) as [G _].
  destruct (play_inning fuel w) as [[] w1|f w1] eqn:E; [|discriminate].
  cbn [final] in *.
  assert (E1 : game_loop (S (S k)) fuel w = end_of_inning w1).
  { rewrite game_loop_unfold, Hg.
    destruct (Z.gtb_spec (inning (engine w)) 15); [lia|].
    rewrite (bind_Ok _ _ _ _ _ E).
    rewrite (bind_Ok _ _ _ _ _ (end_of_inning_unfold w1)).
    rewrite game_loop_unfold, end_of_inning_unfold.
    unfold game_goes_on.
    cbn [engine set_engine inning home_score away_score].
    destruct (Z.leb_spec (inning (engine w1) + 1) 9);
      [rewrite (fr_inning _ _ _ G) in *; lia|].
    destruct (Z.eqb_spec (away_score (engine w1)) (home_score (engine w1)));
      [congruence|]. reflexivity. }
  split; [exact E1|].
  rewrite E1, end_of_inning_unfold. cbn [final log set_engine].
  destruct (fr_log _ _ _ G) as (l & -> & Hl).
  now rewrite innings_played_app, Hl.
Qed.

Lemma game_stops_once_decided_witness :
  game_loop 2 4 (Sample.ninth_inning 0 1)
  = end_of_inning (final (play_inning 4 (Sample.ninth_inning 0 1)))
  /\ innings_played (log (final (game_loop 2 4 (Sample.ninth_inning 0 1))))
     = innings_played (log (Sample.ninth_inning 0 1)) ++ [9].
Proof.
  apply (game_stops_once_decided 0 4 (Sample.ninth_inning 0 1)).
  - reflexivity.
  - vm_compute. split; discriminate.
  - vm_compute. reflexivity.
  - vm_compute. discriminate.
Defined.

(** ** The starting line-up and the order of equal ratings *)

Lemma take_best {A : Type} (key : A -> Q) (n : nat) (l : list A) (p q : A) :
  p ∈ take n (sorted_desc key l) -> q ∈ drop n (sorted_desc key l) ->
  (key q <= key p)%Q.
Proof.
  intros Hp Hq.
  pose proof (sorted_desc_sorted key l) as S.
  rewrite <- (take_drop n (sorted_desc key l)) in S.
  revert Hp Hq S.
  generalize (take n (sorted_desc key l)) as l1.
  generalize (drop n (sorted_desc key l)) as l2.
  intros l2 l1 Hp Hq S. induction l1 as [|x l1 IH]; [inversion Hp|].
  cbn in S. inversion S as [|? ? S' F]; subst.
  apply elem_of_cons in Hp as [->|Hp].
  - rewrite Forall_forall in F. apply F. apply elem_of_app. now right.
  - now apply IH.
Qed.

(** X7. The starting line-up has nine batters, or the whole roster when it
    has fewer; its members are batters of the team.  A roster of fewer than
    nine is returned as it is, in roster order.  From a roster of nine or
    more the line-up is in descending order of overall rating, no batter
    left out rates higher than one who is in, and the line-up together
    with the batters left out is the roster. *)
Theorem starting_lineup_selection (t : Team) :
  let lineup := get_starting_lineup t in
  let left_out := drop 9 (sorted_desc Batter.overall (batters t)) in
  length lineup = Nat.min 9 (length (batters t))
  /\ (forall b, b ∈ lineup -> b ∈ batters t)
  /\ ((length (batters t) < 9)%nat -> lineup = batters t)
  /\ ((9 <= length (batters t))%nat ->
      StronglySorted (desc Batter.overall) lineup
      /\ Permutation (lineup ++ left_out) (batters t)
      /\ forall b c, b ∈ lineup -> c ∈ left_out ->
                     (Batter.overall c <= Batter.overall b)%Q).
Proof.
  cbv zeta. split; [apply get_starting_lineup_length|].
  unfold get_starting_lineup.
  destruct (Z.ltb_spec (Z.of_nat (length (batters t))) 9) as [H|H].
  - split; [tauto|]. split; [reflexivity|]. lia.
  - split; [|split; [lia|]].
    + intros b Hb.
      rewrite <- (sorted_desc_perm Batter.overall (batters t)).
      eapply subseteq_take. exact Hb.
    + intros _. split; [|split].
      * pose proof (sorted_desc_sorted Batter.overall (batters t)) as S.
        rewrite <- (take_drop 9 (sorted_desc Batter.overall (batters t))) in S.
        revert S.
        generalize (take 9 (sorted_desc Batter.overall (batters t))) as l1.
        generalize (drop 9 (sorted_desc Batter.overall (batters t))) as l2.
        intros l2 l1. induction l1 as [|x l1 IH]; cbn; [constructor|].
        inversion 1 as [|? ? S' F]; subst. constructor; [now apply IH|].
        rewrite Forall_app in F. tauto.
      * rewrite take_drop. apply sorted_desc_perm.
      * apply take_best.
Qed.

Lemma filter_insert_desc {A : Type} (key : A -> Q) (k : Q) (x : A) (l : list A) :
  List.filter (fun y => Qeq_bool (key y) k) (insert_desc key x l)
  = List.filter (fun y => Qeq_bool (key y) k) (x :: l).
Proof.
  induction l as [|y l IH]; [reflexivity|].
  cbn [insert_desc]. destruct (Qltb (key x) (key y)) eqn:E; [|reflexivity].
  cbn [List.filter] in *. rewrite IH. apply Qltb_lt in E.
  destruct (Qeq_bool (key x) k) eqn:Ex, (Qeq_bool (key y) k) eqn:Ey;
    try reflexivity.
  apply Qeq_bool_iff in Ex, Ey. rewrite Ex, Ey in E. lra.
Qed.

(** X8. The descending sort is stable: the elements whose key equals a
    given value stand in the sorted list in the order they had in the list
    sorted.  Batters, and pitchers, of equal overall rating are ranked in
    roster order. *)
Theorem sorted_desc_stable {A : Type} (key : A -> Q) (k : Q) (l : list A) :
  List.filter (fun y => Qeq_bool (key y) k) (sorted_desc key l)
  = List.filter (fun y => Qeq_bool (key y) k) l.
Proof.
  induction l as [|x l IH]; [reflexivity|].
  cbn [sorted_desc foldr]. fold (sorted_desc key l).
  rewrite filter_insert_desc. cbn [List.filter]. now rewrite IH.
Qed.

(** ** More on the at-bat resolver *)

Lemma adjusted_obp_bounds (obp whip fatigue : Q) :
  (0.100 <= adjusted_obp obp whip fatigue <= 0.700)%Q.
Proof.
  rewrite adjusted_obp_spec. unfold spec_adjusted_obp. cbv zeta.
  apply clamp_bounds. lra.
Qed.

(** X9. Whatever the ratings and the fatigue, a first draw above 0.700
    retires the batter at the contact check, after that one draw; and a
    first draw of 0.100 or less always passes the contact check, so that a
    second draw is taken. *)
Theorem contact_check_limits (batter : Batter.t) (p : Pitcher.t)
    (defense_rating fatigue : Q) (w : World) :
  let r := simulate_at_bat batter (Some p) defense_rating fatigue w in
  ((0.700 < nth_draw w 0)%Q -> r = Ok OUT (set_draw_pos w (S (draw_pos w))))
  /\ ((nth_draw w 0 <= 0.100)%Q ->
      failure_of r = None /\ (draw_pos w + 2 <= draw_pos (final r))%nat).
Proof.
  pose proof (adjusted_obp_bounds (Batter.obp batter) (Pitcher.whip p) fatigue)
    as B.
  cbv zeta. unfold simulate_at_bat, nth_draw. munfold. cbn.
  destruct (Qltb _ (draws w (draw_pos w))) eqn:E.
  - split; [reflexivity|]. intros H. apply Qltb_lt in E. lra.
  - apply Qltb_ge in E. split; [intros H; lra|]. intros _. cbn.
    repeat match goal with
           | |- context [if ?b then _ else _] => destruct b; cbn
           end; split; try reflexivity; lia.
Qed.

(** X10. With draws in [0,1), a batter whose OPS does not exceed their OBP
    never hits a home run: the at-bat resolver returns some other
    outcome. *)
Theorem no_power_no_home_run (batter : Batter.t) (pitcher : option Pitcher.t)
    (defense_rating fatigue : Q) (w : World) :
  (forall k, (0 <= draws w k < 1)%Q) ->
  (Batter.ops batter <= Batter.obp batter)%Q ->
  match simulate_at_bat batter pitcher defense_rating fatigue w with
  | Ok result _ => result <> HR
  | Fail _ _ => True
  end.
Proof.
  intros Hr Hp. unfold simulate_at_bat, ISO_MULTIPLIER. munfold.
  destruct pitcher as [p|]; cbn; [|exact I].
  repeat match goal with
         | |- context [if Qltb ?a ?b then _ else _] =>
             let E := fresh "E" in destruct (Qltb a b) eqn:E; cbn
         end; try discriminate.
  match goal with
  | H : Qltb (1.0 - _ * 2.5)%Q (draws w ?k) = true |- _ =>
      apply Qltb_lt in H; specialize (Hr k)
  end.
  assert (0 <= (Batter.obp batter - Batter.ops batter) * 2.5)%Q
    by (apply Qmult_le_0_compat; lra).
  lra.
Qed.

Lemma no_power_no_home_run_witness :
  match simulate_at_bat (Batter.mk "Slap" "AWY" 0.300 0 0.300 0 57.5)
          (Some (Sample.pitcher "Home" 78)) 10 0
          (Sample.world 9 Sample.power_swing) with
  | Ok result _ => result <> HR
  | Fail _ _ => True
  end.
Proof.
  apply (no_power_no_home_run (Batter.mk "Slap" "AWY" 0.300 0 0.300 0 57.5)
           (Some (Sample.pitcher "Home" 78)) 10 0
           (Sample.world 9 Sample.power_swing)).
  - intros [|[|[|k]]]; unfold Qle, Qlt; simpl; lia.
  - unfold Qle. simpl. lia.
Defined.

(** ** Building the league *)

Lemma league_add_lookup (add : Team -> Team) (code c : string)
    (league : gmap string Team) :
  league_add add code league !! c
  = if skipped code then league !! c
    else if decide (code = c)
         then Some (add (default (new_team code) (league !! code)))
         else league !! c.
Proof.
  unfold league_add. destruct (skipped code); [reflexivity|].
  destruct (decide (code = c)) as [->|Hne].
  - rewrite lookup_alter_eq.
    destruct (league !! c) as [t|] eqn:E; [now rewrite E|].
    now rewrite lookup_insert_eq.
  - rewrite lookup_alter_ne by assumption.
    destruct (league !! code); [reflexivity|]. now rewrite lookup_insert_ne.
Qed.

Lemma fold_league_add {A : Type} (tm : A -> string) (add : Team -> A -> Team)
    (l : list A) (league : gmap string Team) (c : string) :
  (skipped c = true -> league !! c = None) ->
  foldl (fun lg x => league_add (fun t => add t x) (tm x) lg) league l !! c
  = match league !! c with
    | Some t => Some (foldl add t (filter (fun x => tm x = c) l))
    | None =>
        if skipped c || bool_decide (filter (fun x => tm x = c) l = [])
        then None
        else Some (foldl add (new_team c) (filter (fun x => tm x = c) l))
    end.
Proof.
  revert league. induction l as [|x l IH]; intros league Hs.
  - cbn. destruct (league !! c); [reflexivity|]. now rewrite orb_true_r.
  - cbn [foldl]. rewrite IH; rewrite league_add_lookup.
    + destruct (skipped (tm x)) eqn:Ex.
      * destruct (decide (tm x = c)) as [E|Hne].
        -- subst c. rewrite (Hs Ex), Ex. reflexivity.
        -- now rewrite filter_cons_False by assumption.
      * destruct (decide (tm x = c)) as [E|Hne].
        -- rewrite filter_cons_True by assumption. subst c.
           destruct (league !! tm x) as [t|]; cbn; [reflexivity|].
           now rewrite Ex.
        -- now rewrite filter_cons_False by assumption.
    + destruct (skipped (tm x)) eqn:Ex; [exact Hs|].
      destruct (decide (tm x = c)) as [<-|]; [|exact Hs]. congruence.
Qed.

Lemma foldl_add_batter (t : Team) (l : list Batter.t) :
  foldl add_batter t l
  = {| code := code t; batters := batters t ++ l; pitchers := pitchers t;
       defense := defense t; current_batter_index := current_batter_index t |}.
Proof.
  revert t. induction l as [|x l IH]; intros t; cbn.
  - rewrite app_nil_r. now destruct t.
  - rewrite IH. cbn. now rewrite <- app_assoc.
Qed.

Lemma foldl_add_pitcher (t : Team) (l : list Pitcher.t) :
  foldl add_pitcher t l
  = {| code := code t; batters := batters t; pitchers := pitchers t ++ l;
       defense := defense t; current_batter_index := current_batter_index t |}.
Proof.
  revert t. induction l as [|x l IH]; intros t; cbn.
  - rewrite app_nil_r. now destruct t.
  - rewrite IH. cbn. now rewrite <- app_assoc.
Qed.

(** X11. [create_league] groups the players by team code.  Under a code
    that is empty or ends in TM there is no team, whoever carries it; under
    any other code there is a team exactly when some batter or pitcher
    carries the code, and that team has this code, the batters of the code
    in the order of the batter list, the pitchers of the code in the order
    of the pitcher list, defense 0 and no batter index yet. *)
Theorem create_league_groups (batters : list Batter.t)
    (pitchers : list Pitcher.t) (c : string) :
  let batters_c := filter (fun b => Batter.team b = c) batters in
  let pitchers_c := filter (fun p => Pitcher.team p = c) pitchers in
  create_league batters pitchers !! c
  = if skipped c
       || (bool_decide (batters_c = []) && bool_decide (pitchers_c = []))
    then None
    else Some {| code := c; batters := batters_c; pitchers := pitchers_c;
                 defense := 0; current_batter_index := None |}.
Proof.
  cbv zeta. unfold create_league.
  pose proof (fold_league_add Batter.team add_batter batters ∅ c
                ltac:(intros _; apply lookup_empty)) as Hb.
  rewrite lookup_empty in Hb.
  rewrite (fold_league_add Pitcher.team add_pitcher pitchers); rewrite Hb.
  - destruct (skipped c); [reflexivity|]. cbn [orb].
    destruct (bool_decide (filter (fun b => Batter.team b = c) batters = []))
      eqn:Eb.
    + cbn [andb]. apply bool_decide_eq_true in Eb. rewrite Eb.
      destruct (bool_decide _) eqn:Ep; [reflexivity|].
      now rewrite foldl_add_pitcher.
    + cbn [andb]. now rewrite foldl_add_batter, foldl_add_pitcher.
  - intros ->. reflexivity.
Qed.

(** ** Looking up a team and printing the matchup *)

Lemma to_upper_space (c : ascii) : is_space (to_upper c) = is_space c.
Proof. destruct c as [[] [] [] [] [] [] [] []]; reflexivity. Qed.

Lemma to_upper_not_lower (c : ascii) : is_lower (to_upper c) = false.
Proof. destruct c as [[] [] [] [] [] [] [] []]; reflexivity. Qed.

Lemma to_upper_idem (c : ascii) : to_upper (to_upper c) = to_upper c.
Proof. destruct c as [[] [] [] [] [] [] [] []]; reflexivity. Qed.

Lemma upper_idem (s : string) : upper (upper s) = upper s.
Proof. induction s as [|c s IH]; cbn; [reflexivity|]. now rewrite to_upper_idem, IH. Qed.

Lemma upper_not_lower (s : string) : has_lower (upper s) = false.
Proof. induction s as [|c s IH]; cbn; [reflexivity|]. now rewrite to_upper_not_lower, IH. Qed.

Lemma lstrip_upper (s : string) : lstrip (upper s) = upper (lstrip s).
Proof.
  induction s as [|c s IH]; cbn; [reflexivity|].
  rewrite to_upper_space. now destruct (is_space c).
Qed.

Lemma rstrip_upper (s : string) : rstrip (upper s) = upper (rstrip s).
Proof.
  induction s as [|c s IH]; cbn; [reflexivity|].
  rewrite IH, to_upper_space.
  destruct (rstrip s); cbn; [now destruct (is_space c)|reflexivity].
Qed.

Lemma lstrip_no_space (s : string) : starts_with_space (lstrip s) = false.
Proof.
  induction s as [|c s IH]; cbn; [reflexivity|].
  destruct (is_space c) eqn:E; [exact IH|exact E].
Qed.

Lemma lstrip_fixed (s : string) : starts_with_space s = false -> lstrip s = s.
Proof. destruct s as [|c s]; cbn; [reflexivity|]. now intros ->. Qed.

Lemma rstrip_start (s : string) :
  starts_with_space s = false -> starts_with_space (rstrip s) = false.
Proof.
  destruct s as [|c s]; cbn; [reflexivity|]. intros E.
  destruct (rstrip s); [now rewrite E|exact E].
Qed.

Lemma rstrip_no_space (s : string) : ends_with_space (rstrip s) = false.
Proof.
  induction s as [|c s IH]; cbn; [reflexivity|].
  destruct (rstrip s) as [|d r] eqn:E.
  - destruct (is_space c) eqn:Ec; cbn; [reflexivity|exact Ec].
  - exact IH.
Qed.

Lemma rstrip_idem (s : string) : rstrip (rstrip s) = rstrip s.
Proof.
  induction s as [|c s IH]; cbn; [reflexivity|].
  destruct (rstrip s) as [|d r] eqn:E.
  - destruct (is_space c) eqn:Ec; cbn; [reflexivity|now rewrite Ec].
  - cbn [rstrip] in *. now rewrite IH.
Qed.

Lemma strip_idem (s : string) : strip (strip s) = strip s.
Proof.
  unfold strip.
  rewrite (lstrip_fixed (rstrip (lstrip s)))
    by (apply rstrip_start, lstrip_no_space).
  apply rstrip_idem.
Qed.

Lemma strip_upper (s : string) : strip (upper s) = upper (strip s).
Proof. unfold strip. now rewrite lstrip_upper, rstrip_upper. Qed.

Lemma lstrip_lower (s : string) : has_lower s = false -> has_lower (lstrip s) = false.
Proof.
  induction s as [|c s IH]; cbn; [reflexivity|]. intros H.
  apply orb_false_elim in H as [H1 H2].
  destruct (is_space c); [now apply IH|]. cbn. now rewrite H1, H2.
Qed.

Lemma rstrip_lower (s : string) : has_lower s = false -> has_lower (rstrip s) = false.
Proof.
  induction s as [|c s IH]; cbn; [reflexivity|]. intros H.
  apply orb_false_elim in H as [H1 H2]. specialize (IH H2).
  destruct (rstrip s); [destruct (is_space c)|]; cbn in *; rewrite ?H1; auto.
Qed.

(** X12. [get_team_object] looks the team up under the code in upper case
    without surrounding white space, so the normalised spelling of a code
    finds what the code finds.  It returns nothing exactly when no team is
    filed under the normalised code, and a team it returns is filed under
    a key without lower-case letters and without white space at either
    end: teams filed under other keys are never found. *)
Theorem get_team_object_normalizes (league : gmap string Team) (code : string) :
  is_ascii code = true ->
  get_team_object league (strip (upper code)) = get_team_object league code
  /\ (get_team_object league code = None
      <-> league !! strip (upper code) = None)
  /\ (forall t, get_team_object league code = Some t ->
        exists key, league !! key = Some t
                    /\ has_lower key = false
                    /\ starts_with_space key = false
                    /\ ends_with_space key = false).
Proof.
  intros _. unfold get_team_object. split; [|split].
  - now rewrite strip_upper, strip_idem, <- strip_upper, upper_idem.
  - destruct (league !! strip (upper code)); split; congruence.
  - intros t H. exists (strip (upper code)).
    split; [now destruct (league !! strip (upper code))|].
    unfold strip. split; [|split].
    + apply rstrip_lower, lstrip_lower, upper_not_lower.
    + apply rstrip_start, lstrip_no_space.
    + apply rstrip_no_space.
Qed.

Lemma get_team_object_normalizes_witness :
  is_ascii " nyy " = true
  /\ get_team_object fake_league (strip (upper " nyy "))
     = get_team_object fake_league " nyy "
  /\ (get_team_object fake_league " nyy " = None
      <-> fake_league !! strip (upper " nyy ") = None)
  /\ (forall t, get_team_object fake_league " nyy " = Some t ->
        exists key, fake_league !! key = Some t
                    /\ has_lower key = false
                    /\ starts_with_space key = false
                    /\ ends_with_space key = false).
Proof.
  split; [reflexivity|].
  exact (get_team_object_normalizes fake_league " nyy " eq_refl).
Defined.

(** The assertions of the repository's [test_get_team_object]. *)
Example test_get_team_object :
  (code <$> get_team_object fake_league "nyy") = Some "NYY"%string
  /\ get_team_object fake_league "LAD" = None.
Proof. split; reflexivity. Qed.

Lemma string_app_assoc (a b c : string) :
  ((a ++ b) ++ c)%string = (a ++ b ++ c)%string.
Proof.
  induction a as [|x a IH]; [reflexivity|].
  change (String x ((a ++ b) ++ c) = String x (a ++ b ++ c))%string.
  now rewrite IH.
Qed.

(** X13. Whatever the three names, the matchup header contains the line
    naming both teams, the line naming the venue and a rule of sixty equal
    signs, as the repository's test of it asserts for one matchup. *)
Theorem format_matchup_header_contains (away home stadium : string) :
  let header := format_matchup_header away home stadium in
  contains header ("MATCHUP SET: " ++ away ++ " @ " ++ home)%string
  /\ contains header ("VENUE: " ++ stadium)%string
  /\ contains header (repeat_string "=" 60).
Proof.
  cbv zeta. unfold format_matchup_header, contains.
  cbn [app join]. split; [|split].
  - exists (newline ++ repeat_string "=" 60 ++ newline ++ " ⚾ ")%string,
           (newline ++ (" 🏟  VENUE: " ++ stadium) ++ newline
            ++ repeat_string "=" 60)%string.
    rewrite !string_app_assoc. reflexivity.
  - exists ((newline ++ repeat_string "=" 60) ++ newline
            ++ (" ⚾ MATCHUP SET: " ++ away ++ " @ " ++ home) ++ newline
            ++ " 🏟  ")%string,
           (newline ++ repeat_string "=" 60)%string.
    rewrite !string_app_assoc. reflexivity.
  - exists newline,
           (newline ++ (" ⚾ MATCHUP SET: " ++ away ++ " @ " ++ home) ++ newline
            ++ (" 🏟  VENUE: " ++ stadium) ++ newline
            ++ repeat_string "=" 60)%string.
    rewrite !string_app_assoc. reflexivity.
Qed.

(** ** More on the base state machine *)

(** X14. No runner is ever lost or made up: on a walk, a hit or a home
    run from three binary bases, the runs scored plus the runners left on
    base are exactly the runners on base before plus the batter; an out
    scores nothing and leaves the bases as they were. *)
Theorem runners_are_conserved (first second third is_home : bool)
    (batter : Batter.t) (result : Outcome) (outs : Z) (w : World) :
  exists outs' bases' runs,
    play_effect is_home w
      (apply_result batter result is_home outs (bases_of first second third) w)
    = Some (outs', bases', runs, 0)
    /\ match result with
       | OUT => runs = 0 /\ bases' = bases_of first second third
                /\ outs' = outs + 1
       | _ => runs + occupied bases'
              = occupied (bases_of first second third) + 1
              /\ outs' = outs
       end.
Proof.
  exists (outs_after result outs), (spec_play result first second third).1,
         (spec_play result first second third).2.
  split; [apply apply_result_effect|].
  destruct result, first, second, third; repeat split.
Qed.

Lemma endswith_spec (s suffix : string) :
  endswith s suffix = true <-> exists pre, s = (pre ++ suffix)%string.
Proof.
  split.
  - induction s as [|c s IH]; cbn [endswith].
    + destruct (String.eqb_spec "" suffix) as [<-|]; [|intros; discriminate].
      intros _. now exists ""%string.
    + destruct (String.eqb_spec (String c s) suffix) as [<-|].
      * intros _. now exists ""%string.
      * intros H. destruct (IH H) as (pre & ->). now exists (String c pre).
  - intros (pre & ->). induction pre as [|c pre IH].
    + change ("" ++ suffix)%string with suffix.
      destruct suffix; cbn [endswith]; now rewrite String.eqb_refl.
    + change (String c pre ++ suffix)%string with (String c (pre ++ suffix)).
      cbn [endswith]. rewrite IH. now destruct (String.eqb _ suffix).
Qed.

(** The players that [create_league] leaves out are those whose team code
    is empty or ends in the two letters TM. *)
Lemma skipped_codes (c : string) :
  skipped c = true <-> c = ""%string \/ exists pre, c = (pre ++ "TM")%string.
Proof.
  unfold skipped. rewrite orb_true_iff, endswith_spec.
  destruct (String.eqb_spec c ""); intuition congruence.
Qed.

(** ** A half-inning of three outs *)

Lemma simulate_at_bat_out (batter : Batter.t) (p : Pitcher.t)
    (defense_rating fatigue : Q) (w : World) :
  (0.700 < draws w (draw_pos w))%Q ->
  simulate_at_bat batter (Some p) defense_rating fatigue w
  = Ok OUT (set_draw_pos w (S (draw_pos w))).
Proof.
  intros H.
  pose proof (adjusted_obp_bounds (Batter.obp batter) (Pitcher.whip p) fatigue)
    as B.
  unfold simulate_at_bat. munfold. cbn.
  destruct (Qltb _ (draws w (draw_pos w))) eqn:E; [reflexivity|].
  apply Qltb_ge in E. lra.
Qed.

Lemma plate_appearance_out (bt dt : TeamRef) (lineup : list Batter.t)
    (p : Pitcher.t) (fatigue : Q) (is_home : bool) (outs : Z)
    (bases : list Z) (w : World) (i : Z) (x : Batter.t) :
  current_batter_index (teams w bt) = Some i ->
  0 <= i -> lineup !! Z.to_nat i = Some x ->
  (0.700 < draws w (draw_pos w))%Q ->
  plate_appearance bt dt lineup (Some p) fatigue is_home outs bases w
  = Ok (outs + 1, bases) (after_out w bt i).
Proof.
  intros Ei Hi Hx Hd. unfold plate_appearance.
  rewrite (bind_Ok (team_of bt) _ w w (teams w bt) eq_refl), Ei.
  rewrite (bind_Ok (deref (Some i)) _ w w i eq_refl).
  rewrite (bind_Ok _ _ _ _ _ (py_getitem_Z lineup i x w Hi Hx)).
  rewrite (bind_Ok (team_of dt) _ w w (teams w dt) eq_refl).
  rewrite (bind_Ok _ _ _ _ _
             (simulate_at_bat_out x p (defense (teams w dt)) fatigue w Hd)).
  set (w1 := set_draw_pos w (S (draw_pos w))).
  rewrite (bind_Ok (apply_result x OUT is_home outs bases) _ w1 w1
             (outs + 1, bases) eq_refl). cbv beta iota.
  rewrite (bind_Ok (team_of bt) _ w1 w1 (teams w1 bt) eq_refl).
  change (teams w1 bt) with (teams w bt). rewrite Ei.
  rewrite (bind_Ok (deref (Some i)) _ w1 w1 i eq_refl).
  reflexivity.
Qed.

Lemma half_inning_loop_outs (n fuel : nat) (bt dt : TeamRef)
    (lineup : list Batter.t) (p : Pitcher.t) (fatigue : Q) (is_home : bool)
    (bases : list Z) (w : World) :
  (n <= 3)%nat ->
  length lineup = 9%nat ->
  index_ok (teams w bt) ->
  walk_off (engine w) is_home = false ->
  (forall j, (j < n)%nat -> (0.700 < draws w (j + draw_pos w))%Q) ->
  exists w',
    half_inning_loop (S n + fuel) bt dt lineup (Some p) fatigue is_home
      (3 - Z.of_nat n) bases w = Ok tt w'
    /\ draw_pos w' = (draw_pos w + n)%nat
    /\ engine w' = engine w /\ log w' = log w
    /\ index_ok (teams w' bt).
Proof.
  revert w. induction n as [|n IH]; intros w Hn Hl Hi Hw Hd.
  { exists w. change (S 0 + fuel)%nat with (S fuel).
    rewrite half_inning_loop_unfold. cbn. repeat split; [lia|exact Hi]. }
  change (S (S n) + fuel)%nat with (S (S n + fuel)).
  rewrite half_inning_loop_unfold, Hw.
  destruct (Z.ltb_spec (3 - Z.of_nat (S n)) 3); [|lia].
  destruct Hi as (i & Ei & Hr).
  destruct (lookup_lt_is_Some_2 lineup (Z.to_nat i)) as [x Hx]; [lia|].
  rewrite (bind_Ok _ _ _ _ _
             (plate_appearance_out bt dt lineup p fatigue is_home
                (3 - Z.of_nat (S n)) bases w i x Ei ltac:(lia) Hx
                (Hd 0%nat ltac:(lia)))).
  cbv beta iota.
  replace (3 - Z.of_nat (S n) + 1) with (3 - Z.of_nat n) by lia.
  destruct (IH (after_out w bt i)) as (w' & E & Hp & He & Hg & Hi').
  - lia.
  - exact Hl.
  - cbn. rewrite Nat.eqb_refl. exists ((i + 1) `mod` 9).
    split; [reflexivity|]. apply Z.mod_pos_bound. lia.
  - exact Hw.
  - intros j Hj. cbn. replace (j + S (draw_pos w))%nat with (S j + draw_pos w)%nat
      by lia. apply Hd. lia.
  - exists w'. split; [exact E|]. cbn in Hp. repeat split; try assumption. lia.
Qed.

(** X15. When the next three draws all exceed 0.700, a half-inning of a
    team with at least nine batters, against a pitcher who is there and
    with no walk-off pending, is three outs: it returns after exactly
    three draws, with the engine (scores, inning, fatigue) and the console
    as they were. *)
Theorem three_outs_end_the_half_inning (fuel : nat) (bt dt : TeamRef)
    (p : Pitcher.t) (fatigue : Q) (is_home : bool) (w : World) :
  can_bat (teams w bt) ->
  walk_off (engine w) is_home = false ->
  (forall j, (j < 3)%nat -> (0.700 < nth_draw w j)%Q) ->
  exists w',
    play_half_inning (4 + fuel) bt dt (Some p) fatigue is_home w = Ok tt w'
    /\ draw_pos w' = (draw_pos w + 3)%nat
    /\ engine w' = engine w
    /\ log w' = log w.
Proof.
  intros (Hn & Hf) Hw Hd. unfold play_half_inning.
  rewrite (bind_Ok (team_of bt) _ w w (teams w bt) eq_refl).
  set (lineup := get_starting_lineup (teams w bt)).
  assert (Hl : length lineup = 9%nat).
  { subst lineup. rewrite get_starting_lineup_length. lia. }
  set (init := match current_batter_index (teams w bt) with
               | Some _ => mret ()
               | None => update_team bt (fun t => set_current_batter_index t 0)
               end).
  assert (Hinit : exists w0,
             init w = Ok tt w0 /\ index_ok (teams w0 bt)
             /\ draw_pos w0 = draw_pos w /\ draws w0 = draws w
             /\ engine w0 = engine w /\ log w0 = log w).
  { subst init. destruct Hf as [Hnone|Hok].
    - rewrite Hnone. eexists. split; [reflexivity|]. cbn.
      rewrite Nat.eqb_refl. repeat split. exists 0. split; [reflexivity|lia].
    - destruct Hok as (i & Ei & Hr). rewrite Ei. exists w.
      repeat split. exists i. now split. }
  destruct Hinit as (w0 & E0 & Hi0 & Hp0 & Hd0 & He0 & Hg0).
  rewrite (bind_Ok _ _ _ _ _ E0).
  destruct (half_inning_loop_outs 3 fuel bt dt lineup p fatigue is_home
              [0; 0; 0] w0) as (w' & E & Hp & He & Hg & _);
    try assumption; try lia.
  - now rewrite He0.
  - intros j Hj. rewrite Hd0, Hp0. now apply Hd.
  - exists w'. split; [exact E|]. repeat split; congruence.
Qed.

Lemma three_outs_end_the_half_inning_witness :
  let r := play_half_inning 4 1%nat 0%nat (Some (Sample.pitcher "Home" 78)) 0
             false (Sample.world 9 Sample.all_outs) in
  failure_of r = None
  /\ draw_pos (final r) = 3%nat
  /\ engine (final r) = Sample.new_engine.
Proof.
  destruct (three_outs_end_the_half_inning 0 1%nat 0%nat
              (Sample.pitcher "Home" 78) 0 false
              (Sample.world 9 Sample.all_outs))
    as (w' & E & Hp & He & _).
  - split; [cbn; lia|now left].
  - reflexivity.
  - intros j _. unfold Qlt. cbn. lia.
  - cbv zeta. change (4 + 0)%nat with 4%nat in E. rewrite E.
    cbn [failure_of final]. now rewrite Hp, He.
Defined.

(** ** Starting a game *)

(** X16. A matchup of two teams that each have at least one pitcher and at
    least nine batters, and have not batted yet or have a batter index
    between 0 and 8, never raises [IndexError] or [AttributeError]: the
    pitchers are selected, the line-ups printed, and the game played. *)
Theorem full_teams_play_without_error (away home : TeamRef) (k fuel : nat)
    (w : World) :
  pitchers (teams w away) <> [] ->
  pitchers (teams w home) <> [] ->
  can_bat (teams w away) ->
  can_bat (teams w home) ->
  forall f,
    failure_of (start_simulation away home k fuel w) = Some f ->
    exists l, f = OutOfFuel l.
Proof.
  intros Pa Ph Ca Ch f Hf. unfold start_simulation in Hf.
  destruct (get_starting_pitcher_pick away w Pa) as (pa & _ & Ea).
  set (w1 := set_pick_pos w (S (pick_pos w))) in *.
  destruct (get_starting_pitcher_pick home w1 Ph) as (ph & _ & Eh).
  set (w2 := set_pick_pos w1 (S (pick_pos w1))) in *.
  rewrite (bind_Ok _ _ _ _ _ Ea), (bind_Ok _ _ _ _ _ Eh) in Hf.
  rewrite (bind_Ok (print_team_summary away "AWAY" (Some pa)) _ w2 _ tt eq_refl)
    in Hf.
  rewrite (bind_Ok (print_team_summary home "HOME" (Some ph)) _ _ _ tt eq_refl)
    in Hf.
  rewrite (bind_Ok (Engine_init home away (Some ph) (Some pa)) _ _ _ tt eq_refl)
    in Hf.
  match type of Hf with
  | failure_of (play k fuel ?w3) = _ =>
      apply (full_rosters_never_raise_aux k fuel w3); [|exact Hf]
  end.
  repeat split; try discriminate; cbn; first [apply Ch | apply Ca].
Qed.

Lemma full_teams_play_without_error_witness :
  pitchers (teams (Sample.world 9 Sample.power_swing) 1%nat) <> []
  /\ can_bat (teams (Sample.world 9 Sample.power_swing) 1%nat)
  /\ forall f,
       failure_of (start_simulation 1%nat 0%nat 16 4
                     (Sample.world 9 Sample.power_swing)) = Some f ->
       exists l, f = OutOfFuel l.
Proof.
  assert (C : forall r, can_bat (teams (Sample.world 9 Sample.power_swing) r)).
  { intros r. cbn. unfold Sample.store.
    destruct (Nat.eqb r 1); (split; [cbn; lia|now left]). }
  split; [discriminate|]. split; [apply C|].
  apply (full_teams_play_without_error 1%nat 0%nat 16 4
           (Sample.world 9 Sample.power_swing)).
  - discriminate.
  - discriminate.
  - apply C.
  - apply C.
Defined.
